(** * mdast command line: settings, plug-in lists, root and plug-in lookup

    A shallow embedding of [cli.js].  Strings are sequences of 8-bit code
    units ([string]); the JavaScript objects and arrays handed to the option
    parsers live in explicit stores indexed by references, so that in-place
    mutation and aliasing are visible.  The script itself is a computation
    over a [world] that records what is written where and which calls
    leave the program; Node, the packages and the engine are a type class,
    [Host].

    Left out: the calls of [debug], which print only on request, and the
    interleaving of callbacks: a file is read, the document is processed
    and the result is written one after the other. *)

From Stdlib Require Import ZArith QArith Lia Ascii String.
From stdpp Require Import base option list gmap strings.

Local Open Scope Z_scope.
Local Open Scope nat_scope.

(** ** String primitives of the host language *)

Module JS.

(** The result of a split matcher tried at the current position: the
    text left after the match, or [None] when there is no match here. *)
Abbreviation matcher := (string → option string).

Definition is_space (c : ascii) : bool := Ascii.eqb c " ".

Fixpoint skip_spaces (s : string) : string :=
  match s with
  | String c s' => if is_space c then skip_spaces s' else s
  | EmptyString => s
  end.

(** The regular expressions [/ *[,;] */] and [/ *: */] have the shape
    "spaces, one character of a class, spaces", both runs greedy.  No
    space belongs to either class, so giving spaces back never helps. *)
Definition match_delim (D : ascii → bool) : matcher := fun s =>
  match skip_spaces s with
  | String c r => if D c then Some (skip_spaces r) else None
  | EmptyString => None
  end.

(** A separator that is a string: match it as a prefix. *)
Fixpoint strip_prefix (sep s : string) : option string :=
  match sep, s with
  | EmptyString, _ => Some s
  | String a sep', String b s' =>
      if Ascii.eqb a b then strip_prefix sep' s' else None
  | String _ _, EmptyString => None
  end.

Definition snoc (tok : string) (c : ascii) : string :=
  tok +:+ String c EmptyString.

(** [String.prototype.split] for a matcher that never matches the empty
    string: [tok] is the text since the end of the last match, [s] the
    text from the current position on.  Every step moves forward by at
    least one code unit, whence the bound [fuel]. *)
Fixpoint split_loop (m : matcher) (fuel : nat) (tok s : string)
  : list string :=
  match s with
  | EmptyString => [tok]
  | String c s' =>
      match fuel with
      | O => [tok]
      | S fuel' =>
          match m s with
          | Some rest => tok :: split_loop m fuel' EmptyString rest
          | None => split_loop m fuel' (snoc tok c) s'
          end
      end
  end.

Definition split (m : matcher) (s : string) : list string :=
  split_loop m (String.length s) EmptyString s.

(** [Array.prototype.join] on an array of strings. *)
Fixpoint join (sep : string) (l : list string) : string :=
  match l with
  | [] => EmptyString
  | [x] => x
  | x :: l' => x +:+ sep +:+ join sep l'
  end.

(** *** [Number] applied to a string

    The grammar is StringNumericLiteral of ECMAScript 5.1, section 9.3.1:
    optional white space, then nothing, a hexadecimal integer, or a signed
    decimal literal or [Infinity], then optional white space.  The payload
    of a finite number is the mathematical value of the literal; its
    rounding to a double is left out. *)

Inductive number :=
| NaN
| Infinity (negative : bool)
| Finite (negative : bool) (magnitude : Q).

(** [===] on numbers: [NaN] differs from itself, the two zeros are equal. *)
Definition strict_eq (a b : number) : bool :=
  match a, b with
  | Infinity s, Infinity t => Bool.eqb s t
  | Finite s q, Finite t r =>
      Qeq_bool q r && (Bool.eqb s t || Qeq_bool q (0 # 1))
  | _, _ => false
  end.

(** White space and line terminators among the 8-bit code units. *)
Definition is_white (c : ascii) : bool :=
  match nat_of_ascii c with
  | 9 | 10 | 11 | 12 | 13 | 32 | 160 => true
  | _ => false
  end.

Fixpoint trim_left (s : string) : string :=
  match s with
  | String c s' => if is_white c then trim_left s' else s
  | EmptyString => s
  end.

Fixpoint trim_right (s : string) : string :=
  match s with
  | String c s' =>
      match trim_right s' with
      | EmptyString => if is_white c then EmptyString else String c EmptyString
      | t => String c t
      end
  | EmptyString => s
  end.

Definition digit (c : ascii) : option Z :=
  let n := nat_of_ascii c in
  if (48 <=? n) && (n <=? 57) then Some (Z.of_nat (n - 48)) else None.

Definition hex_digit (c : ascii) : option Z :=
  let n := nat_of_ascii c in
  if (48 <=? n) && (n <=? 57) then Some (Z.of_nat (n - 48))
  else if (97 <=? n) && (n <=? 102) then Some (Z.of_nat (n - 87))
  else if (65 <=? n) && (n <=? 70) then Some (Z.of_nat (n - 55))
  else None.

(** The longest run of digits in base [base] at the head of [s]: how many
    there are, their value after the digits already read ([acc]), and the
    rest of the text. *)
Fixpoint digits (d : ascii → option Z) (base : Z) (count : nat) (acc : Z)
    (s : string) : nat * Z * string :=
  match s with
  | String c s' =>
      match d c with
      | Some v => digits d base (S count) (base * acc + v)%Z s'
      | None => (count, acc, s)
      end
  | EmptyString => (count, acc, s)
  end.

Definition pow10 (e : Z) : Q :=
  if (0 <=? e)%Z then inject_Z (10 ^ e) else Qinv (inject_Z (10 ^ (- e))).

Definition decimal (negative : bool) (mantissa exponent : Z) : number :=
  Finite negative (Qred (Qmult (inject_Z mantissa) (pow10 exponent))).

(** ExponentPart, if any, and then the end of the text. *)
Definition exponent_part (s : string) : option Z :=
  match s with
  | EmptyString => Some 0%Z
  | String c s' =>
      if Ascii.eqb c "e" || Ascii.eqb c "E" then
        let '(negative, s'') :=
          match s' with
          | String "+" t => (false, t)
          | String "-" t => (true, t)
          | _ => (false, s')
          end in
        match digits digit 10 0 0 s'' with
        | (S _, e, EmptyString) => Some (if negative then (- e)%Z else e)
        | _ => None
        end
      else None
  end.

(** StrUnsignedDecimalLiteral, up to the end of the text. *)
Definition unsigned_decimal (negative : bool) (s : string) : number :=
  if String.eqb s "Infinity" then Infinity negative
  else
    let '(n, int, r) := digits digit 10 0 0 s in
    match r with
    | String "." r' =>
        let '(k, mant, r'') := digits digit 10 0 int r' in
        match n + k, exponent_part r'' with
        | S _, Some e => decimal negative mant (e - Z.of_nat k)
        | _, _ => NaN
        end
    | _ =>
        match n, exponent_part r with
        | S _, Some e => decimal negative int e
        | _, _ => NaN
        end
    end.

Definition hex_integer (s : string) : number :=
  match digits hex_digit 16 0 0 s with
  | (S _, v, EmptyString) => Finite false (inject_Z v)
  | _ => NaN
  end.

Definition Number (s : string) : number :=
  match trim_right (trim_left s) with
  | EmptyString => Finite false (0 # 1)
  | String "0" (String "x" h) | String "0" (String "X" h) => hex_integer h
  | String "+" t => unsigned_decimal false t
  | String "-" t => unsigned_decimal true t
  | t => unsigned_decimal false t
  end.

End JS.

(** ** Constants of [cli.js] *)

Definition is_comma_or_semicolon (c : ascii) : bool :=
  Ascii.eqb c "," || Ascii.eqb c ";".

Definition is_colon (c : ascii) : bool := Ascii.eqb c ":".

(** [SPLITTER = / *[,;] */g] and [DELIMITER = / *: */]. *)
Definition SPLITTER : JS.matcher := JS.match_delim is_comma_or_semicolon.
Definition DELIMITER : JS.matcher := JS.match_delim is_colon.

(** ** Stores *)

(** References to heap-allocated arrays and objects. *)
Abbreviation ref := nat.

(** The arrays of strings in existence. *)
Abbreviation arrays := (gmap nat (list string)).

(** ** [parsePlugin] *)

(** [cache.concat(ware.split(SPLITTER))]: [concat] allocates a new array
    and leaves [cache] as it is. *)
Definition parsePlugin (ware : string) (cache : ref) (h : arrays)
  : ref * arrays :=
  let r := fresh (dom h) in
  (r, <[r := (h !!! cache) ++ JS.split SPLITTER ware]> h).

(** How the option framework folds a repeatable option: the callback gets
    the raw argument and the value so far (at first the default), and its
    result becomes the value of the option. *)
Definition accumulate {S : Type} (f : string → ref → S → ref * S)
    (raws : list string) (start : ref * S) : ref * S :=
  foldl (fun acc raw => f raw acc.1 acc.2) start raws.

(** [--use] given [raws] in turn, starting from the default array. *)
Definition useOption (raws : list string) (default : ref) (h : arrays)
  : ref * arrays :=
  accumulate parsePlugin raws (default, h).

(** ** [parseSetting] *)

(** What a setting can hold after coercion. *)
Inductive scalar :=
| VBool (b : bool)
| VNum (n : JS.number)
| VStr (s : string).

(** The objects used as maps from names to values. *)
Abbreviation objects := (gmap nat (gmap string scalar)).

(** Functions of packages the program loads but does not define. *)
Class Packages := {
  (** the [camelcase] package *)
  camelcase : string → string
}.

(** The chain of tests on [value] in the callback of [parseSetting]. *)
Definition coerce (value : string) : scalar :=
  if String.eqb value "true" || String.eqb value "" then VBool true
  else if String.eqb value "false" then VBool false
  else if JS.strict_eq (JS.Number value) (JS.Number value)
       then VNum (JS.Number value)
  else VStr value.

(** [flag[0]] and [flag.slice(1).join(':')] after
    [flag = flag.split(DELIMITER)]; [split] never returns an empty array. *)
Definition flagName (flag : string) : string :=
  default EmptyString (JS.split DELIMITER flag !! 0).

Definition flagValue (flag : string) : string :=
  JS.join ":" (drop 1 (JS.split DELIMITER flag)).

(** The callback of [forEach]: one assignment [cache[name] = value]. *)
Definition setFlag `{Packages} (cache : ref) (h : objects) (flag : string)
  : objects :=
  alter (insert (camelcase (flagName flag)) (coerce (flagValue flag))) cache h.

Definition parseSetting `{Packages} (flags : string) (cache : ref)
    (h : objects) : ref * objects :=
  (cache, foldl (setFlag cache) h (JS.split SPLITTER flags)).

(** [--setting] given [raws] in turn, starting from the default object. *)
Definition settingOption `{Packages} (raws : list string) (default : ref)
    (h : objects) : ref * objects :=
  accumulate parseSetting raws (default, h).

(** The capital of a small letter. *)
Definition upper (c : ascii) : ascii :=
  let n := nat_of_ascii c in
  if (97 <=? n) && (n <=? 122) then ascii_of_nat (n - 32) else c.

(** Modelled from the spec: the [camelcase] package is not part of the
    program; the spec says it turns dash-case and space-case names into
    camelCase.  Used where a concrete instance is needed. *)
Fixpoint camelCase (s : string) : string :=
  match s with
  | String c s' =>
      if Ascii.eqb c "-" || Ascii.eqb c " " then
        match camelCase s' with
        | String d t => String (upper d) t
        | EmptyString => EmptyString
        end
      else String c (camelCase s')
  | EmptyString => s
  end.

Definition packages : Packages := {| camelcase := camelCase |}.

(** ** The process and its surroundings *)

(** A thrown value, as far as [fail] looks at it: its [stack] property when
    it has one, and its conversion to a string.  What is thrown is taken
    to be an object or a string, on which reading [stack] cannot fail. *)
Record thrown := { stack : option string; text : string }.

(** Calls that leave the program, in the order they are made. *)
Inductive call :=
| Exists (path : string)
| Require (path : string)
| NewConfiguration
| GetConfiguration (filename : option string)
| Use
| Parse
| Stringify
| Serialize
| ReadFile (path : string)
| WriteFile (path : string).

Record world := {
  out : list string;               (* writes to standard output *)
  err : list string;               (* writes to standard error *)
  written : list (string * string);  (* files written, with their text *)
  calls : list call
}.

Definition log (c : call) (w : world) : world :=
  {| out := out w; err := err w; written := written w;
     calls := calls w ++ [c] |}.

Definition to_out (s : string) (w : world) : world :=
  {| out := out w ++ [s]; err := err w; written := written w;
     calls := calls w |}.

Definition to_err (s : string) (w : world) : world :=
  {| out := out w; err := err w ++ [s]; written := written w;
     calls := calls w |}.

Definition to_file (path doc : string) (w : world) : world :=
  {| out := out w; err := err w; written := written w ++ [(path, doc)];
     calls := calls w |}.

(** A step either returns, ends the process through [process.exit], or
    throws. *)
Inductive outcome (A : Type) :=
| Return (a : A)
| Exit (code : Z)
| Throw (e : thrown).
Arguments Return {A} a.
Arguments Exit {A} code.
Arguments Throw {A} e.

Definition proc (A : Type) : Type := world → outcome A * world.

#[global] Instance proc_ret : MRet proc := fun A a w => (Return a, w).

#[global] Instance proc_bind : MBind proc := fun A B f m w =>
  match m w with
  | (Return a, w') => f a w'
  | (Exit code, w') => (Exit code, w')
  | (Throw e, w') => (Throw e, w')
  end.

Definition bind {A B} (m : proc A) (f : A → proc B) : proc B := m ≫= f.

Notation "'let*' x ':=' m 'in' k" := (bind m (fun x => k))
  (at level 10, x name, m at level 100, k at level 200).

(** [try { body } catch (exception) { handler(exception) }] *)
Definition try_catch {A} (body : proc A) (handler : thrown → proc A)
  : proc A := fun w =>
  match body w with
  | (Throw e, w') => handler e w'
  | r => r
  end.

(** A call that may throw, noted in [calls]. *)
Definition calling {A} (c : call) (r : thrown + A) : proc A := fun w =>
  (match r with inl e => Throw e | inr a => Return a end, log c w).

Definition exit {A} (code : Z) : proc A := fun w => (Exit code, w).

Definition stdout_write (s : string) : proc unit := fun w =>
  (Return tt, to_out s w).

Definition stderr_write (s : string) : proc unit := fun w =>
  (Return tt, to_err s w).

(** A line feed. *)
Definition nl : string := String (ascii_of_nat 10) EmptyString.

(** [console.log(s)]; [console.log()] is [console_log ""]. *)
Definition console_log (s : string) : proc unit :=
  stdout_write (s +:+ nl).

(** What the program takes from Node, from the packages it loads and from
    the files of the project that are not its own. *)
Class Host := {
  plugin : Type;
  parser : Type;
  tree : Type;
  configuration : Type;
  (** [process.cwd()] *)
  cwd : string;
  (** the one character of [path.sep] *)
  sep : ascii;
  (** [fs.existsSync] *)
  existsSync : string → bool;
  (** [path.join] and [path.resolve] *)
  join : list string → string;
  resolve : list string → string;
  (** [require] of a module other than the program's own *)
  require : string → thrown + plugin;
  (** [new Configuration({file, settings, plugins})] *)
  Configuration :
    option string → gmap string scalar → list string →
    thrown + configuration;
  getConfiguration :
    configuration → option string →
    thrown + (gmap string scalar * list string);
  (** [require('./')] and its methods *)
  mdast : parser;
  mdast_use : parser → list plugin → thrown + parser;
  mdast_parse : parser → string → gmap string scalar → thrown + tree;
  mdast_stringify : parser → tree → gmap string scalar → thrown + string;
  (** [JSON.stringify(doc, null, 2)] *)
  JSON_stringify : tree → thrown + string;
  (** [fs.readFile] and [fs.writeFile], the error of the callback *)
  readFile : string → thrown + string;
  writeFile : string → string → option thrown;
  (** [Object.keys(pack.bin)[0]] *)
  command : string;
  (** [helpInformation()] of the option framework *)
  helpInformation : string;
  (** what Node does with an exception nobody caught *)
  uncaughtReport : thrown → string;
  uncaughtCode : Z;
  uncaughtCode_nonzero : uncaughtCode ≠ 0%Z
}.

Definition seperator `{Host} : string := String sep EmptyString.

(** *** [fail] *)

(** [message.stack || message]: an empty [stack] is falsy. *)
Definition diagnostic (message : thrown) : string :=
  match stack message with
  | Some s => if String.eqb s "" then text message else s
  | None => text message
  end.

Definition fail {A} (message : thrown) : proc A :=
  stderr_write (diagnostic message +:+ nl);; exit 1%Z.

(** A string passed to [fail]. *)
Definition message (s : string) : thrown := {| stack := None; text := s |}.

(** *** [findRoot] *)

(** The [while] loop: [parts] gets shorter at every turn, so [fuel] turns
    suffice when [fuel] is the length of [parts]. *)
Fixpoint findRoot_loop `{Host} (fuel : nat) (parts : list string)
    (location : string) : list string * string :=
  if negb (existsSync (join [location; "package.json"]))
     && (1 <? length parts)
  then
    match fuel with
    | S fuel' =>
        let parts := removelast parts in
        findRoot_loop fuel' parts (JS.join seperator parts)
    | O => (parts, location)
    end
  else (parts, location).

Definition findRoot `{Host} : string :=
  let parts := JS.split (JS.strip_prefix seperator) cwd in
  let '(parts, location) := findRoot_loop (length parts) parts cwd in
  if 0 <? length parts then location else cwd.

Definition root `{Host} : string := findRoot.

(** *** [find] *)

Definition probe `{Host} (path : string) : proc bool := fun w =>
  (Return (existsSync path), log (Exists path) w).

(** The [if] chain of [find]: which path is handed to [require]. *)
Definition choose `{Host} (pathlike : string) : proc string :=
  let local := resolve [root; pathlike] in
  let npm := resolve [root; "node_modules"; pathlike] in
  let current := resolve [cwd; "node_modules"; pathlike] in
  let* here := probe local in
  let* here := (if here then mret true else probe (local +:+ ".js")) in
  if here then mret local else
  let* here := probe npm in
  if here then mret npm else
  let* here := probe current in
  if here then mret current else
  mret pathlike.

Definition find `{Host} (pathlike : string) : proc plugin :=
  let* plugin := choose pathlike in
  try_catch (calling (Require plugin) (require plugin)) fail.

(** *** [run] *)

(** The options bag after [program.parse(process.argv)], with what Node
    says about standard input. *)
Record invocation := {
  (** [stdin.isTTY] *)
  isTTY : bool;
  (** the text of the [data] events of standard input, in order *)
  stdin_data : list string;
  program_output : option string;
  program_config : option string;
  program_setting : gmap string scalar;
  program_use : list string;
  program_ast : bool;
  program_settings : bool;
  program_args : list string
}.

(** Truthiness of [null], [undefined] or a string. *)
Definition truthy (o : option string) : bool :=
  match o with
  | Some s => negb (String.eqb s "")
  | None => false
  end.

(** [fs.writeFile] and its callback, taken as one step. *)
Definition write (path doc : string) `{Host} : proc unit := fun w =>
  match writeFile path doc with
  | Some exception => fail exception (log (WriteFile path) w)
  | None => (Return tt, to_file path doc (log (WriteFile path) w))
  end.

Definition run `{Host} (program : invocation) (value : string)
    (filename : option string) : proc unit :=
  let* configuration :=
    try_catch
      (calling NewConfiguration
         (Configuration (program_config program) (program_setting program)
            (program_use program)))
      fail in
  let* options :=
    calling (GetConfiguration filename)
      (getConfiguration configuration filename) in
  let* plugins := mapM find options.2 in
  let* parser := calling Use (mdast_use mdast plugins) in
  let* doc :=
    try_catch (calling Parse (mdast_parse parser value options.1)) fail in
  let* doc :=
    (if program_ast program
     then calling Serialize (JSON_stringify doc)
     else calling Stringify (mdast_stringify parser doc options.1)) in
  match program_output program with
  | Some path =>
      if truthy (Some path) then write path doc else stdout_write doc
  | None => stdout_write doc
  end.

(** *** The listeners and the body of the script *)

(** A double quote. *)
Definition dq : string := String (ascii_of_nat 34) EmptyString.

(** The listener of [--help]. *)
Definition on_help `{Host} : proc unit :=
  console_log "  # Note that bash does not allow reading and writing";;
  console_log "  # to the same file through pipes";;
  console_log "";;
  console_log "  Usage:";;
  console_log "";;
  console_log "  # Pass `Readme.md` through mdast";;
  console_log ("  $ " +:+ command +:+ " Readme.md -o Readme.md");;
  console_log "";;
  console_log "  # Pass stdin through mdast, with settings, to stdout";;
  console_log ("  $ cat Readme.md | " +:+ command +:+ " --setting " +:+
               dq +:+ "setext, bullet: *" +:+ dq +:+ " > Readme-new.md");;
  console_log "";;
  console_log "  # use a plugin";;
  console_log "  $ npm install mdast-toc";;
  console_log ("  $ " +:+ command +:+ " --use mdast-toc -o Readme.md");;
  console_log "".

(** The listener of [--settings]. *)
Definition on_settings `{Host} : proc unit :=
  console_log "";;
  console_log "  # Settings";;
  console_log "";;
  console_log "  Both camel- and dash-cased settings are allowed.";;
  console_log "";;
  console_log ("  ## [Parse](https://github.com/wooorm/mdast#" +:+
               "mdastparsevalue-options)");;
  console_log "";;
  console_log "  -  `gfm` (boolean, default: true)";;
  console_log "  -  `yaml` (boolean, default: true)";;
  console_log "  -  `pedantic` (boolean, default: false)";;
  console_log "  -  `commonmark` (boolean, default: false)";;
  console_log "  -  `breaks` (boolean, default: false)";;
  console_log "  -  `footnotes` (boolean, default: false)";;
  console_log "";;
  console_log ("  ## [Stringify](https://github.com/wooorm/mdast#" +:+
               "mdaststringifyast-options)");;
  console_log "";;
  console_log "  -  `setext` (boolean, default: false)";;
  console_log "  -  `close-atx` (boolean, default: false)";;
  console_log "  -  `loose-table` (boolean, default: false)";;
  console_log "  -  `spaced-table` (boolean, default: true)";;
  console_log "  -  `reference-links` (boolean, default: false)";;
  console_log "  -  `fences` (boolean, default: false)";;
  console_log ("  -  `bullet` (" +:+ dq +:+ "-" +:+ dq +:+ ", " +:+ dq +:+ "*"
               +:+ dq +:+ ", or " +:+ dq +:+ "+" +:+ dq +:+ ", default: "
               +:+ dq +:+ "-" +:+ dq +:+ ")");;
  console_log ("  -  `rule` (" +:+ dq +:+ "-" +:+ dq +:+ ", " +:+ dq +:+ "*"
               +:+ dq +:+ ", or " +:+ dq +:+ "_" +:+ dq +:+ ", default: "
               +:+ dq +:+ "*" +:+ dq +:+ ")");;
  console_log "  -  `rule-repetition` (number, default: 3)";;
  console_log "  -  `rule-spaces` (boolean, default: false)";;
  console_log ("  -  `strong` (" +:+ dq +:+ "_" +:+ dq +:+ ", or " +:+ dq
               +:+ "*" +:+ dq +:+ ", default: " +:+ dq +:+ "*" +:+ dq
               +:+ ")");;
  console_log ("  -  `emphasis` (" +:+ dq +:+ "_" +:+ dq +:+ ", or " +:+ dq
               +:+ "*" +:+ dq +:+ ", default: " +:+ dq +:+ "_" +:+ dq
               +:+ ")");;
  console_log "";;
  console_log "  Settings are specified as follows:";;
  console_log "";;
  console_log ("    $ " +:+ command +:+ " --setting " +:+ dq +:+ "name:value"
               +:+ dq);;
  console_log "";;
  console_log "  Multiple settings:";;
  console_log "";;
  console_log ("    $ " +:+ command +:+ " --setting " +:+ dq
               +:+ "emphasis:*,strong:_" +:+ dq);;
  console_log "".

(** [program.outputHelp()]: the option framework writes its help to
    standard output and emits [--help]. *)
Definition outputHelp `{Host} : proc unit :=
  stdout_write helpInformation;; on_help.

(** One call of [run] for each [data] event, in the order of the events.
    With [--output] a call of [run] only starts its [fs.writeFile]: the
    callback, and a [fail] in it, comes after later events have been
    handled, while [write] takes the call and its callback as one step.
    So with [--output] this definition stands for the program when there
    is one event; without it [run] is over when it returns and the
    definition follows the program for any number of events. *)
Fixpoint on_data `{Host} (program : invocation) (data : list string)
  : proc unit :=
  match data with
  | [] => mret tt
  | value :: data' => run program value None;; on_data program data'
  end.

(** The script from [var files = program.args] on. *)
Definition main `{Host} (program : invocation) : proc unit :=
  let expextPipeIn := negb (isTTY program) in
  let files := program_args program in
  if program_settings program then on_settings else
  let* files :=
    (if negb expextPipeIn && (length files =? 0) then
       match program_output program with
       | Some path =>
           if truthy (Some path) then mret (files ++ [path])
           else outputHelp;; exit 1%Z
       | None => outputHelp;; exit 1%Z
       end
     else if (expextPipeIn && negb (length files =? 0))
             || (negb expextPipeIn && negb (length files =? 1))
     then fail (message "mdast currently expects one file.")
     else mret files) in
  let files := map (fun filename => resolve [filename]) files in
  match files !! 0 with
  | Some file =>
      if truthy (Some file) then
        let* value :=
          try_catch (calling (ReadFile file) (readFile file)) fail in
        run program value (Some file)
      else on_data program (stdin_data program)
  | None => on_data program (stdin_data program)
  end.

(** How the process ends: with the code given to [process.exit], with
    code 0 when the script and its callbacks return, and the way Node ends
    it when an exception is caught by nobody. *)
Definition start : world :=
  {| out := []; err := []; written := []; calls := [] |}.

Definition node `{Host} (program : invocation) : Z * world :=
  match main program start with
  | (Return _, w) => (0%Z, w)
  | (Exit code, w) => (code, w)
  | (Throw e, w) => (uncaughtCode, to_err (uncaughtReport e) w)
  end.

(** ** A host to run the program on *)

(** Node's [path] module on POSIX systems. *)
Module Posix.

Definition isAbsolute (path : string) : bool :=
  match path with
  | String "/" _ => true
  | _ => false
  end.

Fixpoint trailingSlash (path : string) : bool :=
  match path with
  | String c EmptyString => Ascii.eqb c "/"
  | String _ path' => trailingSlash path'
  | EmptyString => false
  end.

(** Walks [parts] from the last one to the first, dropping [.] and
    resolving [..]; [up] counts the [..] not yet used. *)
Definition normalizeArray (parts : list string) (allowAboveRoot : bool)
  : list string :=
  let '(up, kept) :=
    foldr (fun last '(up, kept) =>
             if String.eqb last "." then (up, kept)
             else if String.eqb last ".." then (S up, kept)
             else match up with
                  | S up' => (up', kept)
                  | O => (O, last :: kept)
                  end)
          (O, []) parts in
  if allowAboveRoot then replicate up ".."%string ++ kept else kept.

(** [path.split('/').filter(function (p) { return !!p; })] *)
Definition segments (path : string) : list string :=
  filter (fun p => p ≠ EmptyString) (JS.split (JS.strip_prefix "/") path).

Definition normalize (path : string) : string :=
  let absolute := isAbsolute path in
  let tail := trailingSlash path in
  let path := JS.join "/" (normalizeArray (segments path) (negb absolute)) in
  let path := if String.eqb path "" && negb absolute then "." else path in
  let path :=
    if negb (String.eqb path "") && tail then path +:+ "/" else path in
  (if absolute then "/" else "") +:+ path.

Definition join (paths : list string) : string :=
  normalize (JS.join "/" (filter (fun p => p ≠ EmptyString) paths)).

(** The loop of [resolve], from the last argument down to the working
    directory, until an absolute path has been met. *)
Fixpoint resolve_loop (paths : list string) (resolvedPath : string)
  : string * bool :=
  match paths with
  | [] => (resolvedPath, false)
  | path :: paths' =>
      if String.eqb path "" then resolve_loop paths' resolvedPath
      else
        let resolvedPath := path +:+ "/" +:+ resolvedPath in
        if isAbsolute path then (resolvedPath, true)
        else resolve_loop paths' resolvedPath
  end.

Definition resolve (cwd : string) (paths : list string) : string :=
  let '(resolvedPath, resolvedAbsolute) :=
    resolve_loop (rev (cwd :: paths)) EmptyString in
  let resolvedPath :=
    JS.join "/"
      (normalizeArray (segments resolvedPath) (negb resolvedAbsolute)) in
  let path := (if resolvedAbsolute then "/" else "") +:+ resolvedPath in
  if String.eqb path "" then "." else path.

End Posix.

(** A POSIX machine with working directory [dir], on which exactly the
    paths of [disk] exist, and an engine that hands its input back. *)
Definition machine (dir : string) (disk : list string) : Host := {|
  plugin := string;
  parser := list string;
  tree := string;
  configuration := gmap string scalar * list string;
  cwd := dir;
  sep := "/"%char;
  existsSync := fun path => bool_decide (Posix.resolve dir [path] ∈ disk);
  join := Posix.join;
  resolve := Posix.resolve dir;
  require := fun path =>
    if bool_decide (Posix.resolve dir [path] ∈ disk)
       || bool_decide (Posix.resolve dir [path +:+ ".js"] ∈ disk)
    then inr path
    else inl {| stack := Some ("Error: Cannot find module '" +:+ path +:+ "'");
                text := "Error: Cannot find module '" +:+ path +:+ "'" |};
  Configuration := fun file settings plugins => inr (settings, plugins);
  getConfiguration := fun configuration filename => inr configuration;
  mdast := [];
  mdast_use := fun parser plugins => inr (parser ++ plugins);
  mdast_parse := fun parser value settings => inr value;
  mdast_stringify := fun parser doc settings => inr doc;
  JSON_stringify := fun doc => inr doc;
  readFile := fun path =>
    if bool_decide (Posix.resolve dir [path] ∈ disk) then inr path
    else inl {| stack := None;
                text := "Error: ENOENT, open '" +:+ path +:+ "'" |};
  writeFile := fun path doc => None;
  command := "mdast";
  helpInformation := "  Usage: mdast [options] file";
  uncaughtReport := diagnostic;
  uncaughtCode := 1%Z;
  uncaughtCode_nonzero := ltac:(discriminate)
|}.

(** ** Notions used in the statements *)

(** A matcher that consumes at least one code unit when it matches. *)
Definition shrinking (m : JS.matcher) : Prop :=
  ∀ s rest, m s = Some rest → String.length rest < String.length s.

Fixpoint spaces (n : nat) : string :=
  match n with
  | O => EmptyString
  | S n' => String " " (spaces n')
  end.

Definition no_leading_space (s : string) : bool :=
  match s with
  | String c _ => negb (JS.is_space c)
  | EmptyString => true
  end.

(** No code unit of the class [D] anywhere. *)
Fixpoint free (D : ascii → bool) (s : string) : bool :=
  match s with
  | EmptyString => true
  | String c s' => negb (D c) && free D s'
  end.

(** No code unit of the class [D] anywhere and no space at the end. *)
Fixpoint clean (D : ascii → bool) (s : string) : bool :=
  match s with
  | EmptyString => true
  | String c s' =>
      negb (D c)
      && match s' with
         | EmptyString => negb (JS.is_space c)
         | String _ _ => clean D s'
         end
  end.

(** No colon has a space next to it. *)
Fixpoint tight (s : string) : bool :=
  match s with
  | String a s' =>
      match s' with
      | String b _ =>
          negb ((JS.is_space a && is_colon b) || (is_colon a && JS.is_space b))
          && tight s'
      | EmptyString => true
      end
  | EmptyString => true
  end.

(** The assignments [parseSetting] makes for [flags], in order. *)
Definition assignments `{Packages} (flags : string)
  : list (string * scalar) :=
  map (fun flag => (camelcase (flagName flag), coerce (flagValue flag)))
      (JS.split SPLITTER flags).

Definition assign (o : gmap string scalar) (kv : string * scalar)
  : gmap string scalar := <[kv.1 := kv.2]> o.

(** The directory [findRoot] looks at after [j] turns of its loop: the
    working directory itself, then its components without the last [j],
    joined again. *)
Definition ancestor `{Host} (j : nat) : string :=
  let parts := JS.split (JS.strip_prefix seperator) cwd in
  match j with
  | O => cwd
  | S _ => JS.join seperator (take (length parts - j) parts)
  end.

(** The path [find] hands to [require], and the paths it looks at on the
    way, as functions of what exists. *)
Definition candidate `{Host} (pathlike : string) : string :=
  let local := resolve [root; pathlike] in
  let npm := resolve [root; "node_modules"; pathlike] in
  let current := resolve [cwd; "node_modules"; pathlike] in
  if existsSync local || existsSync (local +:+ ".js") then local
  else if existsSync npm then npm
  else if existsSync current then current
  else pathlike.

Definition probes `{Host} (pathlike : string) : list call :=
  let local := resolve [root; pathlike] in
  let npm := resolve [root; "node_modules"; pathlike] in
  let current := resolve [cwd; "node_modules"; pathlike] in
  Exists local ::
  (if existsSync local then [] else
   Exists (local +:+ ".js") ::
   (if existsSync (local +:+ ".js") then [] else
    Exists npm ::
    (if existsSync npm then [] else [Exists current]))).

(** [w] with further calls noted. *)
Definition logs (cs : list call) (w : world) : world :=
  {| out := out w; err := err w; written := written w;
     calls := calls w ++ cs |}.

(** What [find] notes for one identifier. *)
Definition lookup_trace `{Host} (pathlike : string) : list call :=
  probes pathlike ++ [Require (candidate pathlike)].

(** Nothing new on standard output, on standard error or in files. *)
Definition unchanged (w w' : world) : Prop :=
  out w' = out w ∧ err w' = err w ∧ written w' = written w.

(** One report of [fail] more on standard error, and nothing else. *)
Definition reported (w w' : world) : Prop :=
  out w' = out w ∧ written w' = written w
  ∧ ∃ e, err w' = err w ++ [diagnostic e +:+ nl].

(** A step that never leaves through [process.exit] other than by [fail],
    with nothing written by then, that throws with nothing written, and
    that writes nothing to standard error when it returns. *)
Definition failsafe {A} (p : proc A) : Prop :=
  ∀ w r w', p w = (r, w') →
    match r with
    | Return _ => err w' = err w
    | Exit code => code = 1%Z ∧ reported w w'
    | Throw _ => unchanged w w'
    end.

(** A [failsafe] step that writes nothing at all when it returns. *)
Definition silent {A} (p : proc A) : Prop :=
  failsafe p ∧ ∀ w a w', p w = (Return a, w') → unchanged w w'.

(** As [failsafe], for standard error alone. *)
Definition one_report {A} (p : proc A) : Prop :=
  ∀ w r w', p w = (r, w') →
    match r with
    | Return _ | Throw _ => err w' = err w
    | Exit code => code = 1%Z ∧ ∃ e, err w' = err w ++ [diagnostic e +:+ nl]
    end.

(** A terminal on standard input, no file, no [--output], and no
    [--settings]. *)
Definition no_input (program : invocation) : bool :=
  negb (program_settings program) && isTTY program
  && (length (program_args program) =? 0)
  && negb (truthy (program_output program)).

(** A space at the end. *)
Fixpoint ends_with_space (s : string) : bool :=
  match s with
  | EmptyString => false
  | String c s' =>
      match s' with
      | EmptyString => JS.is_space c
      | String _ _ => ends_with_space s'
      end
  end.

(** The directory the loop of [findRoot] looks at after [j] turns, when
    it started with [parts] and [location]. *)
Definition station `{Host} (parts : list string) (location : string)
    (j : nat) : string :=
  match j with
  | O => location
  | S _ => JS.join seperator (take (length parts - j) parts)
  end.

(** Every call a step notes satisfies [P]. *)
Definition noting {A} (P : call → Prop) (p : proc A) : Prop :=
  ∀ w, ∃ cs, calls (p w).2 = calls w ++ cs ∧ Forall P cs.

(** The calls [run] may make for [program]: of the two ways to turn the
    tree into text only the one asked for, and no file written but the one
    named by [--output]. *)
Definition allowed (program : invocation) (c : call) : Prop :=
  match c with
  | Stringify => program_ast program = false
  | Serialize => program_ast program = true
  | WriteFile path => program_output program = Some path ∧ path ≠ ""
  | ReadFile _ => False
  | _ => True
  end.

(** Where the text goes when [run] returns. *)
Definition delivered (program : invocation) (w w' : world) : Prop :=
  err w' = err w
  ∧ match program_output program with
    | Some path =>
        if truthy (Some path)
        then out w' = out w ∧ ∃ doc, written w' = written w ++ [(path, doc)]
        else written w' = written w ∧ ∃ doc, out w' = out w ++ [doc]
    | None => written w' = written w ∧ ∃ doc, out w' = out w ++ [doc]
    end.

(** A machine like [machine], on which the stages named in [faults]
    throw; [parse] followed by a space and a text makes the parse of that
    text alone throw. *)
Definition crash (stage : string) : thrown :=
  {| stack := Some ("Error: " +:+ stage +:+ nl +:+ "    at " +:+ stage);
     text := "Error: " +:+ stage |}.

Definition faulty (dir : string) (disk : list string)
    (faults : list string) : Host :=
  let broken (stage : string) := bool_decide (stage ∈ faults) in
  {|
  plugin := string;
  parser := list string;
  tree := string;
  configuration := gmap string scalar * list string;
  cwd := dir;
  sep := "/"%char;
  existsSync := @existsSync (machine dir disk);
  join := Posix.join;
  resolve := Posix.resolve dir;
  require := @require (machine dir disk);
  Configuration := fun file settings plugins =>
    if broken "Configuration" then inl (crash "Configuration")
    else inr (settings, plugins);
  getConfiguration := fun configuration filename =>
    if broken "getConfiguration" then inl (crash "getConfiguration")
    else inr configuration;
  mdast := [];
  mdast_use := fun parser plugins =>
    if broken "use" then inl (crash "use") else inr (parser ++ plugins);
  mdast_parse := fun parser value settings =>
    if broken "parse" || broken ("parse " +:+ value)
    then inl (crash "parse") else inr value;
  mdast_stringify := fun parser doc settings =>
    if broken "stringify" then inl (crash "stringify") else inr doc;
  JSON_stringify := fun doc =>
    if broken "JSON.stringify" then inl (crash "JSON.stringify")
    else inr doc;
  readFile := fun path =>
    if broken "readFile" then inl (crash "readFile") else inr path;
  writeFile := fun path doc =>
    if broken "writeFile" then Some (crash "writeFile") else None;
  command := "mdast";
  helpInformation := "  Usage: mdast [options] file";
  uncaughtReport := diagnostic;
  uncaughtCode := 8%Z;
  uncaughtCode_nonzero := ltac:(discriminate)
|}.

(** [program] with other file arguments. *)
Definition with_args (program : invocation) (args : list string)
  : invocation :=
  {| isTTY := isTTY program;
     stdin_data := stdin_data program;
     program_output := program_output program;
     program_config := program_config program;
     program_setting := program_setting program;
     program_use := program_use program;
     program_ast := program_ast program;
     program_settings := program_settings program;
     program_args := args |}.

(** Empty, or starting with a code unit that is neither a space nor of
    the class [D]; and the same for the end. *)
Definition plain_start (D : ascii → bool) (t : string) : bool :=
  match t with
  | EmptyString => true
  | String c _ => negb (JS.is_space c) && negb (D c)
  end.

Fixpoint plain_end (D : ascii → bool) (t : string) : bool :=
  match t with
  | EmptyString => true
  | String c t' =>
      match t' with
      | EmptyString => negb (JS.is_space c) && negb (D c)
      | String _ _ => plain_end D t'
      end
  end.

(** The file a terminal invocation reads: its one file argument, or the
    file of [--output] when there is no argument. *)
Definition input_file (program : invocation) : option string :=
  match program_args program with
  | [] =>
      match program_output program with
      | Some path => if truthy (Some path) then Some path else None
      | None => None
      end
  | [file] => Some file
  | _ => None
  end.

(** The invocations that hand one text to [run]: on a terminal, a file
    that can be read; with piped input, no file argument and one [data]
    event.  [filename] is the second argument [run] gets and [before] the
    calls made by the time it is called. *)
Definition reads `{Host} (program : invocation) (value : string)
    (filename : option string) (before : list call) : Prop :=
  program_settings program = false
  ∧ ((isTTY program = true
      ∧ ∃ file,
          input_file program = Some file
          ∧ resolve [file] ≠ ""
          ∧ readFile (resolve [file]) = inr value
          ∧ filename = Some (resolve [file])
          ∧ before = [ReadFile (resolve [file])])
     ∨ (isTTY program = false
        ∧ program_args program = []
        ∧ stdin_data program = [value]
        ∧ filename = None
        ∧ before = [])).

(** A process that has written [report] to standard error and nothing
    else, neither to standard output nor to a file. *)
Definition failure (report : string) (cs : list call) : world :=
  {| out := []; err := [report]; written := []; calls := cs |}.

(** How Node ends the process after the script and its callbacks. *)
Definition ending `{Host} {A} (r : outcome A * world) : Z * world :=
  match r with
  | (Return _, w) => (0%Z, w)
  | (Exit code, w) => (code, w)
  | (Throw e, w) => (uncaughtCode, to_err (uncaughtReport e) w)
  end.

(** * Properties *)

(** ** Strings *)

Lemma append_nil_r (s : string) : s +:+ "" = s.
Proof. induction s as [|c s IH]; [done|]. unfold String.app; simpl. fold String.app. by rewrite IH. Qed.

Lemma append_cons (c : ascii) (s t : string) :
  String c s +:+ t = String c (s +:+ t).
Proof. reflexivity. Qed.

Lemma append_assoc (s t u : string) : (s +:+ t) +:+ u = s +:+ t +:+ u.
Proof.
  induction s as [|c s IH]; [done|].
  by rewrite !append_cons, IH.
Qed.

Lemma snoc_append (tok : string) (c : ascii) (s : string) :
  JS.snoc tok c +:+ s = tok +:+ String c s.
Proof. unfold JS.snoc. by rewrite append_assoc. Qed.

Lemma skip_spaces_length (s : string) :
  String.length (JS.skip_spaces s) ≤ String.length s.
Proof.
  induction s as [|c s IH]; simpl; [lia|].
  destruct (JS.is_space c); simpl; lia.
Qed.

Lemma match_delim_shrinking (D : ascii → bool) : shrinking (JS.match_delim D).
Proof.
  intros s rest. unfold JS.match_delim.
  pose proof (skip_spaces_length s) as Hs.
  destruct (JS.skip_spaces s) as [|c r]; [done|].
  destruct (D c); [|done]. intros [= <-].
  pose proof (skip_spaces_length r). simpl in Hs. lia.
Qed.

Lemma strip_prefix_length (sep s rest : string) :
  JS.strip_prefix sep s = Some rest →
  String.length s = String.length sep + String.length rest.
Proof.
  revert s. induction sep as [|a sep IH]; intros s; simpl.
  - by intros [= ->].
  - destruct s as [|b s]; [done|].
    destruct (Ascii.eqb a b); [|done].
    intros H%IH. simpl. lia.
Qed.

Lemma strip_prefix_shrinking (c : ascii) (sep : string) :
  shrinking (JS.strip_prefix (String c sep)).
Proof. intros s rest H%strip_prefix_length. simpl in H. lia. Qed.

(** Any fuel that covers the text gives the same pieces. *)
Lemma split_loop_fuel (m : JS.matcher) :
  shrinking m →
  ∀ n n' tok s,
    String.length s ≤ n → String.length s ≤ n' →
    JS.split_loop m n tok s = JS.split_loop m n' tok s.
Proof.
  intros Hm n. induction n as [|n IH]; intros n' tok s Hn Hn'.
  - destruct s; [by destruct n'|simpl in Hn; lia].
  - destruct s as [|c s]; [by destruct n'|].
    destruct n' as [|n']; [simpl in Hn'; lia|].
    simpl in *. destruct (m (String c s)) as [rest|] eqn:E.
    + apply Hm in E. simpl in E. f_equal. apply IH; lia.
    + apply IH; lia.
Qed.

Lemma split_loop_S (m : JS.matcher) n tok c s :
  JS.split_loop m (S n) tok (String c s)
  = match m (String c s) with
    | Some rest => tok :: JS.split_loop m n "" rest
    | None => JS.split_loop m n (JS.snoc tok c) s
    end.
Proof. reflexivity. Qed.

Lemma split_loop_nonempty (m : JS.matcher) n tok s :
  JS.split_loop m n tok s ≠ [].
Proof.
  revert tok s. induction n as [|n IH]; intros tok s;
    destruct s as [|c s]; simpl; try done.
  destruct (m (String c s)); [done|apply IH].
Qed.

Lemma clean_tail (D : ascii → bool) (c : ascii) (p : string) :
  clean D (String c p) = true → clean D p = true.
Proof. simpl. destruct p; [done|]. by intros [_ ?]%andb_prop. Qed.

Lemma match_delim_skip (D : ascii → bool) (c : ascii) (s : string) :
  JS.is_space c = true →
  JS.match_delim D (String c s) = JS.match_delim D s.
Proof. intros Hc. unfold JS.match_delim. simpl. by rewrite Hc. Qed.

Lemma match_delim_other (D : ascii → bool) (c : ascii) (s : string) :
  JS.is_space c = false → D c = false →
  JS.match_delim D (String c s) = None.
Proof. intros Hc Hd. unfold JS.match_delim. simpl. by rewrite Hc, Hd. Qed.

(** Inside a piece that holds no delimiter and does not end in a space,
    the expression matches nowhere. *)
Lemma match_delim_clean (D : ascii → bool) (p x : string) :
  clean D p = true → p ≠ "" → JS.match_delim D (p +:+ x) = None.
Proof.
  induction p as [|c p IH]; [done|]. intros Hp _.
  pose proof (clean_tail _ _ _ Hp) as Hp'.
  simpl in Hp. apply andb_prop in Hp as [Hc%negb_true_iff Hlast].
  rewrite append_cons.
  destruct (JS.is_space c) eqn:Hs.
  - rewrite match_delim_skip by done.
    destruct p as [|d p]; [done|]. by apply IH.
  - by apply match_delim_other.
Qed.

(** Where no delimiter is left, the expression matches nowhere. *)
Lemma match_delim_free (D : ascii → bool) (s : string) :
  free D s = true → JS.match_delim D s = None.
Proof.
  induction s as [|c s IH]; [done|]. simpl.
  intros [Hc%negb_true_iff Hs]%andb_prop.
  destruct (JS.is_space c) eqn:Hsp.
  - rewrite match_delim_skip by done. by apply IH.
  - by apply match_delim_other.
Qed.

Lemma split_loop_free (D : ascii → bool) (s : string) :
  free D s = true →
  ∀ tok n, JS.split_loop (JS.match_delim D) n tok s = [tok +:+ s]
           ∨ String.length s > n.
Proof.
  induction s as [|c s IH]; intros Hs tok n.
  - left. destruct n; simpl; by rewrite append_nil_r.
  - destruct n as [|n]; [right; simpl; lia|].
    rewrite split_loop_S, (match_delim_free _ _ Hs).
    simpl in Hs. apply andb_prop in Hs as [_ Hs].
    destruct (IH Hs (JS.snoc tok c) n) as [-> | Hlen].
    + left. by rewrite snoc_append.
    + right. simpl. lia.
Qed.

Lemma skip_spaces_spaces (n : nat) (s : string) :
  JS.skip_spaces (spaces n +:+ s) = JS.skip_spaces s.
Proof.
  induction n as [|n IH]; [done|].
  change (spaces (S n)) with (String " " (spaces n)).
  by rewrite append_cons.
Qed.

Lemma skip_spaces_id (s : string) :
  no_leading_space s = true → JS.skip_spaces s = s.
Proof. destruct s as [|c s]; [done|]. simpl. by intros ->%negb_true_iff. Qed.

Lemma match_delim_at (D : ascii → bool) (d : ascii) (a b : nat)
    (rest : string) :
  D d = true → JS.is_space d = false → no_leading_space rest = true →
  JS.match_delim D (spaces a +:+ String d (spaces b +:+ rest)) = Some rest.
Proof.
  intros Hd Hs Hr. unfold JS.match_delim. rewrite skip_spaces_spaces.
  simpl. rewrite Hs, Hd. by rewrite skip_spaces_spaces, skip_spaces_id.
Qed.

(** The piece before the first delimiter, and the rest. *)
Lemma split_first (D : ascii → bool) (d : ascii) (p : string) (a b : nat)
    (rest : string) :
  D d = true → JS.is_space d = false →
  clean D p = true → no_leading_space rest = true →
  ∀ tok n,
    String.length (p +:+ spaces a +:+ String d (spaces b +:+ rest)) ≤ n →
    JS.split_loop (JS.match_delim D) n tok
      (p +:+ spaces a +:+ String d (spaces b +:+ rest))
    = (tok +:+ p) :: JS.split (JS.match_delim D) rest.
Proof.
  intros Hd Hs Hp Hr. induction p as [|c p IH]; intros tok n Hn.
  - change ("" +:+ ?x) with x in *. rewrite append_nil_r.
    pose proof (match_delim_at D d a b rest Hd Hs Hr) as Hm.
    pose proof (match_delim_shrinking D _ _ Hm) as Hlen.
    destruct (spaces a +:+ String d (spaces b +:+ rest)) as [|c s] eqn:E;
      [done|].
    destruct n as [|n]; [simpl in Hn; lia|].
    rewrite split_loop_S, Hm. f_equal.
    apply split_loop_fuel; [apply match_delim_shrinking| |]; simpl in *; lia.
  - change (String c p +:+ ?x) with (String c (p +:+ x)) in *.
    destruct n as [|n]; [simpl in Hn; lia|].
    rewrite split_loop_S.
    rewrite <- append_cons at 1. rewrite match_delim_clean by done.
    rewrite IH; [|by eapply clean_tail|simpl in Hn; lia].
    by rewrite snoc_append.
Qed.

(** ** [parsePlugin] and [--use] *)

Lemma parsePlugin_lookup (ware : string) (cache : ref) (h : arrays)
    (xs : list string) :
  h !! cache = Some xs →
  (parsePlugin ware cache h).2 !! (parsePlugin ware cache h).1
  = Some (xs ++ JS.split SPLITTER ware).
Proof.
  intros Hc. unfold parsePlugin. simpl.
  rewrite lookup_insert_eq.
  by rewrite (lookup_total_correct _ _ _ Hc).
Qed.

Lemma useOption_lookup (raws : list string) :
  ∀ (cache : ref) (h : arrays) (xs : list string),
    h !! cache = Some xs →
    (useOption raws cache h).2 !! (useOption raws cache h).1
    = Some (xs ++ concat (map (JS.split SPLITTER) raws)).
Proof.
  unfold useOption, accumulate.
  induction raws as [|raw raws IH]; intros cache h xs Hc; simpl.
  - by rewrite app_nil_r.
  - pose proof (parsePlugin_lookup raw _ _ _ Hc) as Hstep.
    destruct (parsePlugin raw cache h) as [r h'] eqn:E. simpl in Hstep.
    rewrite (IH r h' _ Hstep). by rewrite app_assoc.
Qed.

(** C6: the list built by a sequence of [--use] options is the default
    array's elements followed by the pieces of each raw string, in the
    order the options were given, where a raw string is cut at every comma
    and semicolon (each taking the spaces around it along) and is one
    piece when it has neither; nothing is removed, so
    [--use "p1" --use "p1,p2"] gives [["p1", "p1", "p2"]]. *)
Theorem use_appends_in_order :
  (∀ (raws : list string) (cache : ref) (h : arrays) (xs : list string),
     h !! cache = Some xs →
     (useOption raws cache h).2 !! (useOption raws cache h).1
     = Some (xs ++ concat (map (JS.split SPLITTER) raws)))
  ∧ (∀ ware,
       free is_comma_or_semicolon ware = true →
       JS.split SPLITTER ware = [ware])
  ∧ (∀ token a d b rest,
       is_comma_or_semicolon d = true →
       clean is_comma_or_semicolon token = true →
       no_leading_space rest = true →
       JS.split SPLITTER (token +:+ spaces a +:+ String d (spaces b +:+ rest))
       = token :: JS.split SPLITTER rest)
  ∧ (∀ (cache : ref) (h : arrays),
       h !! cache = Some [] →
       (useOption ["p1"; "p1,p2"]%string cache h).2
         !! (useOption ["p1"; "p1,p2"]%string cache h).1
       = Some ["p1"; "p1"; "p2"]%string).
Proof.
  split_and!.
  - intros raws. apply useOption_lookup.
  - intros ware Hw. unfold JS.split, SPLITTER.
    destruct (split_loop_free _ _ Hw "" (String.length ware)) as [->|?];
      [done|lia].
  - intros token a d b rest Hd Ht Hr. unfold JS.split at 1, SPLITTER.
    rewrite (split_first is_comma_or_semicolon d token a b rest); try done.
    unfold is_comma_or_semicolon in Hd.
    apply orb_prop in Hd as [->%Ascii.eqb_eq | ->%Ascii.eqb_eq]; reflexivity.
  - intros cache h Hc. by rewrite (useOption_lookup _ _ _ _ Hc).
Qed.

Lemma use_appends_in_order_witness :
  (useOption ["p1"; "p1,p2"]%string 0 {[ 0 := [] ]}).2
    !! (useOption ["p1"; "p1,p2"]%string 0 {[ 0 := [] ]}).1
  = Some ["p1"; "p1"; "p2"]%string
  ∧ JS.split SPLITTER "mdast-toc" = ["mdast-toc"%string]
  ∧ JS.split SPLITTER "p1 ; p2,p3" = "p1"%string :: JS.split SPLITTER "p2,p3".
Proof.
  destruct use_appends_in_order as (_ & Hone & Hcut & Hex).
  split_and!.
  - apply (Hex 0 {[ 0 := [] ]}). reflexivity.
  - apply (Hone "mdast-toc"%string). reflexivity.
  - apply (Hcut "p1"%string 1 ";"%char 1 "p2,p3"%string); reflexivity.
Defined.

(** C10: [parsePlugin] leaves the array it is given, and every other
    array, as it was, and returns a reference that was not in use before,
    to an array holding the accumulator's elements followed by the new
    pieces. *)
Theorem parsePlugin_allocates (ware : string) (cache : ref) (h : arrays)
    (xs : list string) :
  h !! cache = Some xs →
  let r := (parsePlugin ware cache h).1 in
  let h' := (parsePlugin ware cache h).2 in
  h !! r = None
  ∧ r ≠ cache
  ∧ h' !! cache = Some xs
  ∧ h' !! r = Some (xs ++ JS.split SPLITTER ware)
  ∧ ∀ r', r' ≠ r → h' !! r' = h !! r'.
Proof.
  intros Hc r h'.
  assert (Hfresh : h !! r = None).
  { apply not_elem_of_dom. apply is_fresh. }
  assert (Hne : r ≠ cache) by congruence.
  split_and!; try done.
  - subst h' r. unfold parsePlugin; simpl. by rewrite lookup_insert_ne.
  - by apply parsePlugin_lookup.
  - intros r' Hr'. subst h' r. unfold parsePlugin; simpl.
    by rewrite lookup_insert_ne.
Qed.

Lemma parsePlugin_allocates_witness :
  let r := (parsePlugin "p1,p2" 0 {[ 0 := ["p0"%string] ]}).1 in
  let h' := (parsePlugin "p1,p2" 0 {[ 0 := ["p0"%string] ]}).2 in
  ({[ 0 := ["p0"%string] ]} : arrays) !! r = None
  ∧ r ≠ 0
  ∧ h' !! 0 = Some ["p0"%string]
  ∧ h' !! r = Some (["p0"%string] ++ JS.split SPLITTER "p1,p2")
  ∧ ∀ r', r' ≠ r → h' !! r' = ({[ 0 := ["p0"%string] ]} : arrays) !! r'.
Proof.
  apply (parsePlugin_allocates "p1,p2" 0 {[ 0 := ["p0"%string] ]} ["p0"%string]).
  reflexivity.
Defined.

(** ** [parseSetting] and [--setting] *)

Lemma strict_eq_self (n : JS.number) : JS.strict_eq n n = true ↔ n ≠ JS.NaN.
Proof.
  destruct n as [|s|s q]; simpl.
  - split; [discriminate|congruence].
  - by destruct s.
  - rewrite Qeq_bool_refl. by destruct s.
Qed.

Lemma coerce_true (value : string) :
  value = "" ∨ value = "true" → coerce value = VBool true.
Proof. by intros [-> | ->]. Qed.

Lemma coerce_other (value : string) :
  value ≠ "" → value ≠ "true" → value ≠ "false" →
  coerce value
  = if JS.strict_eq (JS.Number value) (JS.Number value)
    then VNum (JS.Number value) else VStr value.
Proof.
  intros H1%String.eqb_neq H2%String.eqb_neq H3%String.eqb_neq.
  unfold coerce. by rewrite H1, H2, H3.
Qed.

Lemma setFlag_insert `{Packages} (flag : string) (cache : ref)
    (h : objects) (o : gmap string scalar) :
  h !! cache = Some o →
  setFlag cache h flag
  = <[cache := assign o (camelcase (flagName flag), coerce (flagValue flag))]> h.
Proof. intros Hc. unfold setFlag. by rewrite (alter_alt_Some _ _ _ _ Hc). Qed.

Lemma parseSetting_fold `{Packages} (flags : string) (cache : ref)
    (h : objects) (o : gmap string scalar) :
  h !! cache = Some o →
  parseSetting flags cache h
  = (cache, <[cache := foldl assign o (assignments flags)]> h).
Proof.
  intros Hc. unfold parseSetting, assignments. f_equal.
  generalize (JS.split SPLITTER flags). intros flags'.
  revert h o Hc. induction flags' as [|flag flags' IH]; intros h o Hc; simpl.
  - by rewrite insert_id.
  - rewrite (setFlag_insert _ _ _ _ Hc).
    rewrite (IH _ (assign o (camelcase (flagName flag), coerce (flagValue flag)))).
    + by rewrite insert_insert_eq.
    + by rewrite lookup_insert_eq.
Qed.

Lemma settingOption_fold `{Packages} (raws : list string) :
  ∀ (cache : ref) (h : objects) (o : gmap string scalar),
    h !! cache = Some o →
    settingOption raws cache h
    = (cache, <[cache := foldl assign o (concat (map assignments raws))]> h).
Proof.
  unfold settingOption, accumulate.
  induction raws as [|raw raws IH]; intros cache h o Hc; simpl.
  - by rewrite insert_id.
  - rewrite (parseSetting_fold _ _ _ _ Hc). simpl.
    rewrite (IH cache _ (foldl assign o (assignments raw))).
    + by rewrite insert_insert_eq, foldl_app.
    + by rewrite lookup_insert_eq.
Qed.

Lemma foldl_assign_other (writes : list (string * scalar)) :
  ∀ (o : gmap string scalar) (k : string),
    k ∉ writes.*1 → foldl assign o writes !! k = o !! k.
Proof.
  induction writes as [|[k' v'] writes IH]; intros o k Hk; simpl; [done|].
  rewrite fmap_cons, not_elem_of_cons in Hk. destruct Hk as [Hne Hk].
  rewrite (IH _ _ Hk). unfold assign. simpl in *. by rewrite lookup_insert_ne.
Qed.

Lemma foldl_assign_last (before after : list (string * scalar))
    (o : gmap string scalar) (k : string) (v : scalar) :
  k ∉ after.*1 →
  foldl assign o (before ++ (k, v) :: after) !! k = Some v.
Proof.
  intros Hk. rewrite foldl_app. simpl.
  rewrite (foldl_assign_other _ _ _ Hk). unfold assign. simpl.
  by rewrite lookup_insert_eq.
Qed.

(** C1: the value of a setting entry is coerced by four rules tried in
    order, on the exact text: the empty string and [true] give the boolean
    true; [false] gives the boolean false; any other text that [Number]
    does not turn into [NaN] gives that number; everything else stays the
    string it was.  Each entry assigns the coerced value to the
    camel-cased name, so [Footnotes:TRUE] stores the string [TRUE] and
    [ruleRepetition:3] stores the number 3. *)
Theorem coercion_rules `{Packages} :
  (∀ value, value = "" ∨ value = "true" → coerce value = VBool true)
  ∧ (∀ value, value = "false" → coerce value = VBool false)
  ∧ (∀ value,
       value ≠ "" → value ≠ "true" → value ≠ "false" →
       JS.Number value ≠ JS.NaN → coerce value = VNum (JS.Number value))
  ∧ (∀ value,
       value ≠ "" → value ≠ "true" → value ≠ "false" →
       JS.Number value = JS.NaN → coerce value = VStr value)
  ∧ (∀ flag cache (h : objects) o,
       h !! cache = Some o →
       setFlag cache h flag
       = <[cache := <[camelcase (flagName flag) := coerce (flagValue flag)]> o]> h)
  ∧ (∀ cache (h : objects) o,
       h !! cache = Some o →
       parseSetting "Footnotes:TRUE" cache h
       = (cache, <[cache := <[camelcase "Footnotes" := VStr "TRUE"]> o]> h))
  ∧ (∀ cache (h : objects) o,
       h !! cache = Some o →
       parseSetting "ruleRepetition:3" cache h
       = (cache,
          <[cache := <[camelcase "ruleRepetition"
                       := VNum (JS.Finite false (3 # 1))]> o]> h)).
Proof.
  split_and!.
  - apply coerce_true.
  - by intros value ->.
  - intros value H1 H2 H3 Hn. rewrite coerce_other by done.
    by apply strict_eq_self in Hn as ->.
  - intros value H1 H2 H3 Hn. rewrite coerce_other by done.
    by rewrite Hn.
  - intros flag cache h o Hc. by rewrite (setFlag_insert _ _ _ _ Hc).
  - intros cache h o Hc. by rewrite (parseSetting_fold _ _ _ _ Hc).
  - intros cache h o Hc. by rewrite (parseSetting_fold _ _ _ _ Hc).
Qed.

Lemma coercion_rules_witness :
  coerce "TRUE" = VStr "TRUE"
  ∧ coerce "0x1F" = VNum (JS.Finite false (31 # 1))
  ∧ parseSetting (H:=packages) "ruleRepetition:3" 0 {[ 0 := ∅ ]}
    = (0, <[0 := <["ruleRepetition"%string := VNum (JS.Finite false (3 # 1))]> ∅]>
            {[ 0 := ∅ ]}).
Proof.
  destruct (coercion_rules (H:=packages)) as (_ & _ & Hnum & Hstr & _ & _ & Hset).
  split_and!.
  - apply Hstr; [discriminate..|reflexivity].
  - apply (Hnum "0x1F"%string); discriminate.
  - apply (Hset 0 {[ 0 := ∅ ]} ∅). reflexivity.
Defined.

(** C5: every [--setting] option writes into the one object it is handed
    and hands that same object on, so after any sequence of options the
    reference is still the default object's and the object holds, for
    every name, the value assigned last, whether the assignments come from
    one raw string or from several; [--setting "a:1" --setting "a:2"]
    leaves [{ a: 2 }]. *)
Theorem settings_last_write_wins `{Packages} :
  (∀ flags cache (h : objects) o,
     h !! cache = Some o →
     parseSetting flags cache h
     = (cache, <[cache := foldl assign o (assignments flags)]> h))
  ∧ (∀ raws cache (h : objects) o,
       h !! cache = Some o →
       settingOption raws cache h
       = (cache,
          <[cache := foldl assign o (concat (map assignments raws))]> h))
  ∧ (∀ (writes before after : list (string * scalar)) o k v,
       writes = before ++ (k, v) :: after → k ∉ after.*1 →
       foldl assign o writes !! k = Some v)
  ∧ (∀ (writes : list (string * scalar)) o k,
       k ∉ writes.*1 → foldl assign o writes !! k = o !! k)
  ∧ (∀ cache (h : objects),
       h !! cache = Some ∅ →
       settingOption ["a:1"; "a:2"]%string cache h
       = (cache,
          <[cache := {[ camelcase "a" := VNum (JS.Finite false (2 # 1)) ]}]> h)).
Proof.
  split_and!.
  - intros flags cache h o. apply parseSetting_fold.
  - intros raws. apply settingOption_fold.
  - intros writes before after o k v -> Hk. by apply foldl_assign_last.
  - intros writes o k. apply foldl_assign_other.
  - intros cache h Hc. rewrite (settingOption_fold _ _ _ _ Hc).
    do 2 f_equal. apply insert_insert_eq.
Qed.

Lemma settings_last_write_wins_witness :
  settingOption (H:=packages) ["a:1"; "a:2"]%string 0 {[ 0 := ∅ ]}
  = (0, <[0 := {[ "a"%string := VNum (JS.Finite false (2 # 1)) ]}]> {[ 0 := ∅ ]}).
Proof.
  destruct (settings_last_write_wins (H:=packages)) as (_ & _ & _ & _ & Hex).
  apply (Hex 0 {[ 0 := ∅ ]}). reflexivity.
Defined.

(** ** Names and values of entries *)

Lemma tight_tail (c : ascii) (v : string) :
  tight (String c v) = true → tight v = true.
Proof. simpl. destruct v; [done|]. by intros [_ ?]%andb_prop. Qed.

Lemma match_delim_tight_space (v : string) :
  tight v = true → no_leading_space v = false →
  JS.match_delim is_colon v = None.
Proof.
  induction v as [|c v IH]; [done|]. intros Ht Hs.
  simpl in Hs. apply negb_false_iff in Hs.
  rewrite match_delim_skip by done.
  pose proof (tight_tail _ _ Ht) as Ht'.
  destruct v as [|d v]; [done|].
  simpl in Ht. rewrite Hs in Ht. simpl in Ht.
  apply andb_prop in Ht as [Hd _].
  destruct (JS.is_space d) eqn:Hsd.
  - apply IH; [done|]. simpl. by rewrite Hsd.
  - apply match_delim_other; [done|].
    destruct (is_colon d); [|done]. by destruct (JS.is_space c).
Qed.

Lemma join_cons (sep x : string) (l : list string) :
  l ≠ [] → JS.join sep (x :: l) = x +:+ sep +:+ JS.join sep l.
Proof. by destruct l. Qed.

(** A value in which no colon has a space next to it comes back from
    splitting and joining as it was. *)
Lemma join_split_tight (v : string) :
  tight v = true →
  ∀ tok n,
    String.length v ≤ n →
    JS.join ":" (JS.split_loop DELIMITER n tok v) = tok +:+ v.
Proof.
  induction v as [|c v IH]; intros Ht tok n Hn.
  - destruct n; simpl; by rewrite append_nil_r.
  - destruct n as [|n]; [simpl in Hn; lia|].
    pose proof (tight_tail _ _ Ht) as Ht'.
    simpl in Hn. simpl JS.split_loop.
    destruct (is_colon c) eqn:Hc.
    + apply Ascii.eqb_eq in Hc as ->.
      assert (Hv : no_leading_space v = true).
      { destruct v as [|d v]; [done|]. simpl in Ht. simpl.
        by apply andb_prop in Ht as [->%negb_true_iff _]. }
      assert (Hm : DELIMITER (String ":" v) = Some v).
      { unfold DELIMITER, JS.match_delim. simpl. by rewrite skip_spaces_id. }
      rewrite Hm, join_cons by apply split_loop_nonempty.
      rewrite IH by (done || lia). done.
    + assert (Hm : DELIMITER (String c v) = None).
      { destruct (JS.is_space c) eqn:Hs.
        - apply match_delim_tight_space; [done|]. simpl. by rewrite Hs.
        - by apply match_delim_other. }
      rewrite Hm, IH by (done || lia). by rewrite snoc_append.
Qed.

(** C7, amended: an entry is split at every colon, each colon taking the
    spaces on both its sides with it; the text before the first colon is
    the name, and the pieces after it are joined again with a bare colon.
    So a value in which no colon has a space next to it is stored as
    written, while the spaces next to a colon inside the value are lost:
    after [a:], the value [b : c] becomes [b:c]. *)
Theorem flag_split_at_colons :
  (∀ name a b rest,
     clean is_colon name = true → no_leading_space rest = true →
     flagName (name +:+ spaces a +:+ ":" +:+ spaces b +:+ rest) = name
     ∧ flagValue (name +:+ spaces a +:+ ":" +:+ spaces b +:+ rest)
       = JS.join ":" (JS.split DELIMITER rest))
  ∧ (∀ value,
       tight value = true → JS.join ":" (JS.split DELIMITER value) = value)
  ∧ (∀ piece a b rest,
       clean is_colon piece = true → no_leading_space rest = true →
       JS.join ":"
         (JS.split DELIMITER (piece +:+ spaces a +:+ ":" +:+ spaces b +:+ rest))
       = piece +:+ ":" +:+ JS.join ":" (JS.split DELIMITER rest))
  ∧ flagValue "a:b : c" = "b:c"%string.
Proof.
  split_and!.
  - intros name a b rest Hn Hr. unfold flagName, flagValue, JS.split.
    change (":" +:+ ?x) with (String ":" x). unfold DELIMITER.
    rewrite !(split_first is_colon ":" name a b rest) by done. done.
  - intros value Hv. unfold JS.split. by rewrite join_split_tight.
  - intros piece a b rest Hp Hr. unfold JS.split at 1.
    change (":" +:+ ?x) with (String ":" x). unfold DELIMITER.
    rewrite (split_first is_colon ":" piece a b rest) by done.
    rewrite join_cons by apply split_loop_nonempty. done.
  - reflexivity.
Qed.

Lemma flag_split_at_colons_witness :
  (flagName "rule : b:c" = "rule"%string
   ∧ flagValue "rule : b:c" = JS.join ":" (JS.split DELIMITER "b:c"))
  ∧ JS.join ":" (JS.split DELIMITER "b:c") = "b:c"%string
  ∧ JS.join ":" (JS.split DELIMITER "b : c")
    = ("b" +:+ ":" +:+ JS.join ":" (JS.split DELIMITER "c"))%string.
Proof.
  destruct flag_split_at_colons as (Hfirst & Htight & Hdrop & _).
  split; [|split].
  - apply (Hfirst "rule"%string 1 1 "b:c"%string); reflexivity.
  - apply (Htight "b:c"%string); reflexivity.
  - apply (Hdrop "b"%string 1 1 "c"%string); reflexivity.
Defined.

(** C7 as it was stated fails: the value [b : c] after the first colon is
    not kept, [b:c] is stored in its place. *)
Lemma value_spaces_around_colon_lost :
  ((parseSetting (H:=packages) "a:b : c" 0 {[ 0 := ∅ ]}).2 !! 0)
    ≫= (fun o => o !! "a"%string)
  = Some (VStr "b:c")
  ∧ ((parseSetting (H:=packages) "a:b : c" 0 {[ 0 := ∅ ]}).2 !! 0)
      ≫= (fun o => o !! "a"%string)
    ≠ Some (VStr "b : c").
Proof. split; [reflexivity|]. vm_compute. discriminate. Qed.

(** ** [findRoot] *)

Lemma strip_prefix_app (sep s rest : string) :
  JS.strip_prefix sep s = Some rest → s = sep +:+ rest.
Proof.
  revert s. induction sep as [|a sep IH]; intros s; simpl.
  - by intros [= ->].
  - destruct s as [|b s]; [done|].
    destruct (Ascii.eqb a b) eqn:E; [|done].
    apply Ascii.eqb_eq in E as ->. intros ->%IH. done.
Qed.

(** Joining the pieces with the separator gives the text back. *)
Lemma join_split_loop (c : ascii) (sep : string) :
  ∀ n tok s,
    String.length s ≤ n →
    JS.join (String c sep)
      (JS.split_loop (JS.strip_prefix (String c sep)) n tok s)
    = tok +:+ s.
Proof.
  induction n as [|n IH]; intros tok s Hn.
  - destruct s; [simpl; by rewrite append_nil_r|simpl in Hn; lia].
  - destruct s as [|d s]; [simpl; by rewrite append_nil_r|].
    rewrite split_loop_S.
    destruct (JS.strip_prefix (String c sep) (String d s)) as [rest|] eqn:E.
    + rewrite join_cons by apply split_loop_nonempty.
      pose proof (strip_prefix_shrinking c sep _ _ E) as Hlen.
      rewrite IH by (simpl in *; lia).
      by rewrite (strip_prefix_app _ _ _ E).
    + rewrite IH by (simpl in *; lia). by rewrite snoc_append.
Qed.

Lemma length_append (s t : string) :
  String.length (s +:+ t) = String.length s + String.length t.
Proof. induction s as [|c s IH]; [done|]. rewrite append_cons. simpl. lia. Qed.

Lemma findRoot_loop_stop `{Host} (fuel : nat) (parts : list string)
    (location : string) :
  negb (existsSync (join [location; "package.json"%string]))
  && (1 <? length parts) = false →
  findRoot_loop fuel parts location = (parts, location).
Proof. intros Hg. destruct fuel; simpl; by rewrite Hg. Qed.

Lemma findRoot_loop_no_marker `{Host} :
  (∀ location, existsSync (join [location; "package.json"%string]) = false) →
  ∀ fuel parts location,
    1 < length parts → length parts ≤ S fuel →
    findRoot_loop fuel parts location
    = (take 1 parts, JS.join seperator (take 1 parts)).
Proof.
  intros Hno. induction fuel as [|fuel IH]; intros parts location Hlt Hle;
    [lia|].
  simpl. rewrite Hno. apply Nat.ltb_lt in Hlt as Hlt'. rewrite Hlt'. simpl.
  assert (Hlast : removelast parts = take (length parts - 1) parts).
  { rewrite removelast_firstn_len. f_equal. lia. }
  destruct (decide (1 < length (removelast parts))) as [Hmore|Hone].
  - rewrite IH; [|done|].
    + rewrite Hlast, take_take. do 3 f_equal; lia.
    + rewrite Hlast, length_take. lia.
  - rewrite findRoot_loop_stop.
    + rewrite Hlast in *. rewrite length_take in Hone.
      replace (length parts - 1) with 1 by lia. done.
    + rewrite Hno. simpl. apply Nat.ltb_ge. lia.
Qed.

(** C2, where the program departs from it: when no directory holds a
    [package.json], [findRoot] pops components until one is left and
    returns that one, the text before the first separator of the working
    directory (the empty string for an absolute POSIX path); whenever the
    working directory has a separator in it, this is not the working
    directory. *)
Theorem findRoot_without_marker `{Host} (first : string)
    (rest : list string) :
  (∀ location, existsSync (join [location; "package.json"%string]) = false) →
  JS.split (JS.strip_prefix seperator) cwd = first :: rest →
  rest ≠ [] →
  findRoot = first ∧ findRoot ≠ cwd.
Proof.
  intros Hno Hsplit Hrest.
  assert (Hroot : findRoot = first).
  { unfold findRoot. rewrite Hsplit.
    rewrite (findRoot_loop_no_marker Hno);
      [done|destruct rest; [done|simpl; lia]|lia]. }
  split; [done|]. rewrite Hroot. intros Heq.
  pose proof (join_split_loop sep "" (String.length cwd) "" cwd) as Hjoin.
  fold seperator in Hjoin. unfold JS.split in Hsplit.
  rewrite Hsplit, join_cons in Hjoin by done.
  specialize (Hjoin ltac:(lia)).
  apply (f_equal String.length) in Hjoin.
  rewrite !length_append in Hjoin. rewrite <- Heq in Hjoin.
  unfold seperator in Hjoin. simpl in Hjoin. lia.
Qed.

Lemma findRoot_without_marker_witness :
  @findRoot (machine "/a/b/c/d" []) = ""%string
  ∧ @findRoot (machine "/a/b/c/d" []) ≠ "/a/b/c/d"%string.
Proof.
  apply (findRoot_without_marker (H:=machine "/a/b/c/d" []) ""
           ["a"; "b"; "c"; "d"]%string).
  - intros location. reflexivity.
  - reflexivity.
  - discriminate.
Defined.

Lemma findRoot_loop_found `{Host} :
  ∀ i fuel parts location,
    (∀ j, j < i →
       existsSync
         (join [match j with
                | O => location
                | S _ => JS.join seperator (take (length parts - j) parts)
                end; "package.json"%string]) = false) →
    existsSync
      (join [match i with
             | O => location
             | S _ => JS.join seperator (take (length parts - i) parts)
             end; "package.json"%string]) = true →
    i < length parts → i ≤ fuel →
    findRoot_loop fuel parts location
    = (take (length parts - i) parts,
       match i with
       | O => location
       | S _ => JS.join seperator (take (length parts - i) parts)
       end).
Proof.
  induction i as [|i IH]; intros fuel parts location Hbefore Hhere Hi Hfuel.
  - rewrite findRoot_loop_stop by (by rewrite Hhere).
    by rewrite Nat.sub_0_r, firstn_all.
  - destruct fuel as [|fuel]; [lia|]. simpl findRoot_loop.
    rewrite (Hbefore 0) by lia.
    assert (Hlt : (1 <? length parts) = true) by (apply Nat.ltb_lt; lia).
    rewrite Hlt. simpl negb. simpl andb. cbv iota.
    assert (Hlast : removelast parts = take (length parts - 1) parts).
    { rewrite removelast_firstn_len. f_equal. lia. }
    assert (Hcut : ∀ j,
      take (length (removelast parts) - j) (removelast parts)
      = take (length parts - S j) parts).
    { intros j. rewrite Hlast, length_take, take_take. f_equal. lia. }
    rewrite (IH fuel (removelast parts)).
    + rewrite Hcut. destruct i; [by rewrite Hlast|done].
    + intros j Hj. specialize (Hbefore (S j) ltac:(lia)).
      destruct j; [|by rewrite Hcut].
      rewrite Hlast. exact Hbefore.
    + destruct i; [by rewrite Hlast|by rewrite Hcut].
    + rewrite Hlast, length_take. lia.
    + lia.
Qed.

(** X6: where a [package.json] is met before the components run out,
    [findRoot] returns the directory it was met in, the nearest one to
    the working directory. *)
Lemma findRoot_nearest_marker `{Host} (i : nat) :
  (∀ j, j < i → existsSync (join [ancestor j; "package.json"%string]) = false) →
  existsSync (join [ancestor i; "package.json"%string]) = true →
  i < length (JS.split (JS.strip_prefix seperator) cwd) →
  findRoot = ancestor i.
Proof.
  intros Hbefore Hhere Hi. unfold findRoot.
  rewrite (findRoot_loop_found i); try done; [|lia].
  rewrite length_take.
  destruct (0 <? _) eqn:E; [done|]. apply Nat.ltb_ge in E. lia.
Qed.

Lemma findRoot_nearest_marker_witness :
  @findRoot (machine "/a/b/c/d" ["/a/b/package.json"; "/a/package.json"]%string)
  = "/a/b"%string.
Proof.
  apply (findRoot_nearest_marker
           (H:=machine "/a/b/c/d"
                 ["/a/b/package.json"; "/a/package.json"]%string) 2).
  - intros [|[|j]] Hj; [reflexivity|reflexivity|lia].
  - reflexivity.
  - vm_compute. lia.
Defined.

(** With a marker three levels up, that directory is found. *)
Example findRoot_three_levels_up :
  @findRoot (machine "/a/b/c/d" ["/a/package.json"; "/a/b/c/d/notes.md"]%string)
  = "/a"%string.
Proof. vm_compute. reflexivity. Qed.

(** A marker in the root directory alone is not found. *)
Example findRoot_marker_in_root :
  @findRoot (machine "/a/b" ["/package.json"]%string) = ""%string.
Proof. vm_compute. reflexivity. Qed.

(** ** [find] *)

Lemma logs_logs (a b : list call) (w : world) :
  logs b (logs a w) = logs (a ++ b) w.
Proof. unfold logs. simpl. by rewrite app_assoc. Qed.

Lemma logs_nil (w : world) : logs [] w = w.
Proof. destruct w. unfold logs. simpl. by rewrite app_nil_r. Qed.

Lemma log_logs (c : call) (w : world) : log c w = logs [c] w.
Proof. reflexivity. Qed.

Lemma choose_spec `{Host} (pathlike : string) (w : world) :
  choose pathlike w = (Return (candidate pathlike), logs (probes pathlike) w).
Proof.
  unfold choose, candidate, probes, bind, mbind, proc_bind, probe, mret,
    proc_ret.
  rewrite !log_logs. simpl.
  destruct (existsSync (resolve [root; pathlike])); simpl; [done|].
  rewrite !log_logs, !logs_logs.
  destruct (existsSync (resolve [root; pathlike] +:+ ".js")); simpl; [done|].
  rewrite !log_logs, !logs_logs.
  destruct (existsSync (resolve [root; "node_modules"%string; pathlike]));
    simpl; [done|].
  rewrite !log_logs, !logs_logs.
  by destruct (existsSync (resolve [cwd; "node_modules"%string; pathlike])).
Qed.

Lemma find_spec `{Host} (pathlike : string) (w : world) :
  find pathlike w
  = match require (candidate pathlike) with
    | inr module => (Return module, logs (lookup_trace pathlike) w)
    | inl exception =>
        (Exit 1%Z,
         to_err (diagnostic exception +:+ nl) (logs (lookup_trace pathlike) w))
    end.
Proof.
  unfold find, bind, mbind, proc_bind. rewrite choose_spec.
  unfold try_catch, calling, lookup_trace. rewrite log_logs, logs_logs.
  by destruct (require (candidate pathlike)).
Qed.

(** C3: [find] looks at the candidates in a fixed order and stops at the
    first that exists: the identifier resolved against the root (as it is,
    then with [.js] added), then against [node_modules] of the root, then
    against [node_modules] of the working directory; when none exists the
    identifier itself is left to [require].  The path chosen is the one
    path handed to [require].  In particular a path found under the root
    is chosen whatever [node_modules] holds. *)
Theorem find_search_order `{Host} (pathlike : string) (w : world) :
  let local := resolve [root; pathlike] in
  let npm := resolve [root; "node_modules"%string; pathlike] in
  let current := resolve [cwd; "node_modules"%string; pathlike] in
  (existsSync local = true →
   choose pathlike w = (Return local, logs [Exists local] w))
  ∧ (existsSync local = false → existsSync (local +:+ ".js") = true →
     choose pathlike w
     = (Return local, logs [Exists local; Exists (local +:+ ".js")] w))
  ∧ (existsSync local = false → existsSync (local +:+ ".js") = false →
     existsSync npm = true →
     choose pathlike w
     = (Return npm,
        logs [Exists local; Exists (local +:+ ".js"); Exists npm] w))
  ∧ (existsSync local = false → existsSync (local +:+ ".js") = false →
     existsSync npm = false → existsSync current = true →
     choose pathlike w
     = (Return current,
        logs [Exists local; Exists (local +:+ ".js"); Exists npm;
              Exists current] w))
  ∧ (existsSync local = false → existsSync (local +:+ ".js") = false →
     existsSync npm = false → existsSync current = false →
     choose pathlike w
     = (Return pathlike,
        logs [Exists local; Exists (local +:+ ".js"); Exists npm;
              Exists current] w))
  ∧ (∀ chosen w',
       choose pathlike w = (Return chosen, w') →
       calls (find pathlike w).2 = calls w' ++ [Require chosen]).
Proof.
  intros local npm current. rewrite choose_spec.
  unfold candidate, probes. fold local npm current.
  split_and!.
  - by intros ->.
  - by intros -> ->.
  - by intros -> -> ->.
  - by intros -> -> -> ->.
  - by intros -> -> -> ->.
  - intros chosen w' [= <- <-]. rewrite find_spec. unfold lookup_trace.
    destruct (require _); cbn [snd calls logs to_err]; by rewrite app_assoc.
Qed.

Lemma find_search_order_witness :
  let H := machine "/a/b"
             ["/a/package.json"; "/a/toc.js"; "/a/node_modules/toc"]%string in
  existsSync "/a/toc" = false
  ∧ existsSync "/a/toc.js" = true
  ∧ existsSync "/a/node_modules/toc" = true
  ∧ choose "toc" {| out := []; err := []; written := []; calls := [] |}
    = (Return "/a/toc"%string,
       {| out := []; err := []; written := [];
          calls := [Exists "/a/toc"; Exists "/a/toc.js"] |}).
Proof.
  intros H.
  destruct (find_search_order (H:=H) "toc"
              {| out := []; err := []; written := []; calls := [] |})
    as (_ & Hjs & _).
  split; [reflexivity|]. split; [reflexivity|]. split; [reflexivity|].
  apply Hjs; reflexivity.
Defined.

(** ** Plug-in loading in [run] *)

Lemma mapM_find_cons `{Host} (p : string) (ps : list string) :
  mapM find (p :: ps)
  = bind (find p) (fun y => bind (mapM find ps) (fun k => mret (y :: k))).
Proof. reflexivity. Qed.

Lemma bind_unfold {A B} (m : proc A) (f : A → proc B) (w : world) :
  bind m f w
  = match m w with
    | (Return a, w') => f a w'
    | (Exit code, w') => (Exit code, w')
    | (Throw e, w') => (Throw e, w')
    end.
Proof. reflexivity. Qed.

Lemma mapM_find_ok `{Host} (ps : list string) :
  Forall (fun p => ∃ module, require (candidate p) = inr module) ps →
  ∀ w, ∃ modules,
    mapM find ps w = (Return modules, logs (concat (map lookup_trace ps)) w).
Proof.
  induction 1 as [|p ps [module Hp] _ IH]; intros w.
  - exists []. by rewrite logs_nil.
  - rewrite mapM_find_cons, bind_unfold, find_spec, Hp, bind_unfold.
    destruct (IH (logs (lookup_trace p) w)) as [modules ->].
    exists (module :: modules). simpl. by rewrite logs_logs.
Qed.

Lemma mapM_find_fail `{Host} (before : list string) (id : string)
    (after : list string) (e : thrown) :
  Forall (fun p => ∃ module, require (candidate p) = inr module) before →
  require (candidate id) = inl e →
  ∀ w,
    mapM find (before ++ id :: after) w
    = (Exit 1%Z,
       to_err (diagnostic e +:+ nl)
         (logs (concat (map lookup_trace (before ++ [id]))) w)).
Proof.
  intros Hok He. induction Hok as [|p ps [module Hp] _ IH]; intros w.
  - simpl app. rewrite mapM_find_cons, bind_unfold, find_spec, He.
    simpl. by rewrite app_nil_r.
  - rewrite <- !app_comm_cons.
    rewrite mapM_find_cons, bind_unfold, find_spec, Hp, bind_unfold, IH.
    simpl. by rewrite logs_logs.
Qed.

(** C4: when the path chosen for a plug-in fails to load, be it a file
    that is not there, a module that does not parse or one that throws
    while it is set up, [run] ends the process with code 1: the failure is
    reported on standard error, nothing is written to standard output or
    to a file, the engine is not called, and [require] has been called once
    for each identifier up to the failing one, on the path chosen for it
    and on no other. *)
Theorem plugin_load_failure_is_fatal `{Host} (program : invocation)
    (value : string) (filename : option string) (w : world)
    (cfg : configuration) (settings : gmap string scalar)
    (before : list string) (id : string) (after : list string)
    (e : thrown) :
  Configuration (program_config program) (program_setting program)
    (program_use program) = inr cfg →
  getConfiguration cfg filename = inr (settings, before ++ id :: after) →
  Forall (fun p => ∃ module, require (candidate p) = inr module) before →
  require (candidate id) = inl e →
  ∃ w',
    run program value filename w = (Exit 1%Z, w')
    ∧ out w' = out w
    ∧ written w' = written w
    ∧ err w' = err w ++ [diagnostic e +:+ nl]
    ∧ calls w'
      = calls w ++ [NewConfiguration; GetConfiguration filename]
        ++ concat (map (fun p => probes p ++ [Require (candidate p)])
                       (before ++ [id])).
Proof.
  intros Hcfg Hget Hok He. eexists. split.
  - unfold run. rewrite bind_unfold. unfold try_catch, calling at 1.
    rewrite Hcfg. rewrite bind_unfold. unfold calling at 1. rewrite Hget.
    rewrite bind_unfold. cbn [snd].
    rewrite (mapM_find_fail _ _ _ _ Hok He). reflexivity.
  - cbn [out written err calls to_err logs log]. split_and!; try done.
    by rewrite <- !app_assoc.
Qed.

Lemma plugin_load_failure_is_fatal_witness :
  let H := machine "/a/b" ["/a/package.json"; "/a/toc.js"]%string in
  let program :=
    {| isTTY := false; stdin_data := ["# Title"%string];
       program_output := None; program_config := None;
       program_setting := ∅; program_use := ["toc"; "lint"]%string;
       program_ast := false; program_settings := false;
       program_args := [] |} in
  ∃ w',
    run program "# Title" None
        {| out := []; err := []; written := []; calls := [] |}
    = (Exit 1%Z, w')
    ∧ out w' = []
    ∧ written w' = []
    ∧ err w' = [] ++ ["Error: Cannot find module 'lint'" +:+ nl]
    ∧ calls w'
      = [] ++ [NewConfiguration; GetConfiguration None]
        ++ concat (map (fun p => probes p ++ [Require (candidate p)])
                       (["toc"%string] ++ ["lint"%string])).
Proof.
  intros H program.
  apply (plugin_load_failure_is_fatal (H:=H) program "# Title" None
           {| out := []; err := []; written := []; calls := [] |}
           (∅, ["toc"; "lint"]%string) ∅ ["toc"%string] "lint" []
           {| stack := Some "Error: Cannot find module 'lint'"%string;
              text := "Error: Cannot find module 'lint'"%string |}).
  - reflexivity.
  - reflexivity.
  - constructor; [|constructor]. exists "/a/toc"%string. reflexivity.
  - reflexivity.
Defined.

(** ** Failures *)

Lemma fail_spec {A} (message : thrown) (w : world) :
  @fail A message w = (Exit 1%Z, to_err (diagnostic message +:+ nl) w).
Proof. reflexivity. Qed.

Lemma failsafe_fail {A} (message : thrown) : failsafe (@fail A message).
Proof.
  intros w r w'. rewrite fail_spec. intros [= <- <-].
  split; [done|]. unfold reported. simpl. eauto.
Qed.

Lemma silent_ret {A} (a : A) : silent (mret a : proc A).
Proof.
  split.
  - by intros w r w' [= <- <-].
  - intros w a' w' [= _ <-]. by unfold unchanged.
Qed.

Lemma silent_calling {A} (c : call) (r : thrown + A) : silent (calling c r).
Proof.
  split.
  - intros w r' w'. unfold calling. intros [= <- <-].
    destruct r; [done|by unfold unchanged].
  - intros w a w'. unfold calling. intros [= _ <-]. by unfold unchanged.
Qed.

Lemma silent_try_calling {A} (c : call) (r : thrown + A) :
  silent (try_catch (calling c r) fail).
Proof.
  split.
  - intros w r' w'. unfold try_catch, calling. destruct r as [e|a].
    + rewrite fail_spec. intros [= <- <-]. split; [done|].
      unfold reported. simpl. eauto.
    + by intros [= <- <-].
  - intros w a w'. unfold try_catch, calling. destruct r as [e|a'].
    + by rewrite fail_spec.
    + intros [= _ <-]. by unfold unchanged.
Qed.

Lemma failsafe_bind {A B} (m : proc A) (f : A → proc B) :
  silent m → (∀ a, failsafe (f a)) → failsafe (bind m f).
Proof.
  intros [Hm Hret] Hf w r w'. rewrite bind_unfold.
  destruct (m w) as [[a|code|e] w1] eqn:Em.
  - destruct (Hret _ _ _ Em) as (Ho & He & Hw). intros E.
    specialize (Hf a w1 r w' E). unfold reported, unchanged in *.
    destruct r; by rewrite <- ?Ho, <- ?He, <- ?Hw.
  - intros [= <- <-]. apply (Hm _ _ _ Em).
  - intros [= <- <-]. apply (Hm _ _ _ Em).
Qed.

Lemma silent_bind {A B} (m : proc A) (f : A → proc B) :
  silent m → (∀ a, silent (f a)) → silent (bind m f).
Proof.
  intros Hm Hf. split.
  - apply failsafe_bind; [done|]. intros a. apply Hf.
  - intros w b w'. rewrite bind_unfold.
    destruct (m w) as [[a|code|e] w1] eqn:Em; [|done..].
    intros E. destruct Hm as [_ Hret].
    destruct (Hret _ _ _ Em) as (Ho & He & Hw).
    destruct (Hf a) as [_ Hret'].
    destruct (Hret' _ _ _ E) as (Ho' & He' & Hw').
    unfold unchanged. by rewrite Ho', He', Hw'.
Qed.

Lemma silent_find `{Host} (pathlike : string) : silent (find pathlike).
Proof.
  split.
  - intros w r w'. rewrite find_spec.
    destruct (require _); intros [= <- <-]; [|done].
    split; [done|]. unfold reported. simpl. eauto.
  - intros w a w'. rewrite find_spec.
    destruct (require _); [done|]. intros [= _ <-]. by unfold unchanged.
Qed.

Lemma silent_mapM_find `{Host} (ps : list string) : silent (mapM find ps).
Proof.
  induction ps as [|p ps IH]; [apply silent_ret|].
  rewrite mapM_find_cons.
  apply silent_bind; [apply silent_find|]. intros y.
  apply silent_bind; [done|]. intros k. apply silent_ret.
Qed.

Create HintDb quiet.

#[local] Hint Resolve silent_ret silent_calling silent_try_calling
  silent_find silent_mapM_find : quiet.

Lemma failsafe_stdout_write (doc : string) : failsafe (stdout_write doc).
Proof. by intros w r w' [= <- <-]. Qed.

Lemma failsafe_write `{Host} (path doc : string) : failsafe (write path doc).
Proof.
  intros w r w'. unfold write. destruct (writeFile path doc) as [e|].
  - rewrite fail_spec. intros [= <- <-]. split; [done|].
    unfold reported. simpl. eauto.
  - by intros [= <- <-].
Qed.

(** However [run] goes wrong, nothing has been written to standard output
    or to a file by then. *)
Lemma failsafe_run `{Host} (program : invocation) (value : string)
    (filename : option string) :
  failsafe (run program value filename).
Proof.
  unfold run.
  do 5 (apply failsafe_bind; [auto with quiet|intros ?]).
  apply failsafe_bind; [destruct (program_ast program); auto with quiet|].
  intros doc. destruct (program_output program) as [path|].
  - destruct (truthy (Some path));
      [apply failsafe_write|apply failsafe_stdout_write].
  - apply failsafe_stdout_write.
Qed.

Lemma failsafe_one_report {A} (p : proc A) : failsafe p → one_report p.
Proof.
  intros Hp w r w' E. specialize (Hp w r w' E).
  destruct r; [done| |by destruct Hp as (_ & ? & _)].
  destruct Hp as [? (_ & _ & ?)]. done.
Qed.

Lemma one_report_bind {A B} (m : proc A) (f : A → proc B) :
  one_report m → (∀ a, one_report (f a)) → one_report (bind m f).
Proof.
  intros Hm Hf w r w'. rewrite bind_unfold.
  destruct (m w) as [[a|code|e] w1] eqn:Em.
  - pose proof (Hm _ _ _ Em) as He. simpl in He. intros E.
    specialize (Hf a w1 r w' E). destruct r; by rewrite <- ?He.
  - intros [= <- <-]. apply (Hm _ _ _ Em).
  - intros [= <- <-]. apply (Hm _ _ _ Em).
Qed.

Lemma one_report_ret {A} (a : A) : one_report (mret a : proc A).
Proof. by intros w r w' [= <- <-]. Qed.

Lemma one_report_console_log (s : string) : one_report (console_log s).
Proof. by intros w r w' [= <- <-]. Qed.

Lemma one_report_on_settings `{Host} : one_report on_settings.
Proof.
  unfold on_settings.
  repeat (apply (one_report_bind (console_log _));
          [apply one_report_console_log|intros _]).
  apply one_report_console_log.
Qed.

Lemma one_report_on_data `{Host} (program : invocation)
    (data : list string) :
  one_report (on_data program data).
Proof.
  induction data as [|value data IH]; [apply one_report_ret|].
  simpl. apply (one_report_bind (run program value None)); [|done].
  apply failsafe_one_report, failsafe_run.
Qed.

Lemma one_report_main `{Host} (program : invocation) :
  no_input program = false → one_report (main program).
Proof.
  unfold no_input, main. intros Hni.
  destruct (program_settings program); [apply one_report_on_settings|].
  apply one_report_bind.
  - destruct (isTTY program), (program_args program) as [|file files];
      simpl in *.
    + destruct (program_output program) as [path|]; [|done].
      simpl in Hni. apply negb_false_iff in Hni. rewrite Hni.
      apply one_report_ret.
    + destruct files; simpl;
        [apply one_report_ret|apply failsafe_one_report, failsafe_fail].
    + apply one_report_ret.
    + apply failsafe_one_report, failsafe_fail.
  - intros files. cbv zeta.
    destruct (map _ files !! 0) as [file|];
      [|apply one_report_on_data].
    destruct (truthy (Some file)); [|apply one_report_on_data].
    apply one_report_bind.
    + apply failsafe_one_report, silent_try_calling.
    + intros value. apply failsafe_one_report, failsafe_run.
Qed.

Lemma node_no_input `{Host} (program : invocation) :
  no_input program = true → node program = (1%Z, (outputHelp start).2).
Proof.
  unfold no_input, node, main. intros Hni.
  apply andb_prop in Hni as [Hni Hout].
  apply andb_prop in Hni as [Hni Hargs].
  apply andb_prop in Hni as [Hset Htty].
  apply negb_true_iff in Hset, Hout. rewrite Hset, Htty, Hargs.
  destruct (program_output program) as [path|]; [|reflexivity].
  cbn [negb andb bind]. rewrite Hout. reflexivity.
Qed.

(** C8, amended: unless [--settings] was asked for, an invocation with
    piped standard input and a file argument ends with code 1, the words
    [mdast currently expects one file.] on standard error, and nothing
    else done: no configuration, no plug-in, no file read, no engine. *)
Theorem piped_input_with_file_is_rejected `{Host} (program : invocation) :
  program_settings program = false →
  isTTY program = false →
  program_args program ≠ [] →
  node program
  = (1%Z,
     {| out := []; err := ["mdast currently expects one file." +:+ nl];
        written := []; calls := [] |}).
Proof.
  intros Hset Htty Hargs. unfold node, main. rewrite Hset, Htty.
  by destruct (program_args program).
Qed.

Lemma piped_input_with_file_is_rejected_witness :
  @node (machine "/a/b" ["/a/b/readme.md"%string])
    {| isTTY := false; stdin_data := ["# Title"%string];
       program_output := None; program_config := None;
       program_setting := ∅; program_use := [];
       program_ast := false; program_settings := false;
       program_args := ["readme.md"%string] |}
  = (1%Z,
     {| out := []; err := ["mdast currently expects one file." +:+ nl];
        written := []; calls := [] |}).
Proof.
  apply (piped_input_with_file_is_rejected
           (H:=machine "/a/b" ["/a/b/readme.md"%string])).
  - reflexivity.
  - reflexivity.
  - discriminate.
Defined.

(** C8 as it was stated fails: with [--settings], piped input and a file
    argument, the settings are listed and the process ends with code 0. *)
Lemma settings_listing_with_piped_file :
  let code_world :=
    @node (machine "/a/b" ["/a/b/readme.md"%string])
      {| isTTY := false; stdin_data := ["# Title"%string];
         program_output := None; program_config := None;
         program_setting := ∅; program_use := [];
         program_ast := false; program_settings := true;
         program_args := ["readme.md"%string] |} in
  code_world.1 = 0%Z ∧ code_world.1 ≠ 1%Z ∧ err code_world.2 = [].
Proof. vm_compute. split_and!; [reflexivity|discriminate|reflexivity]. Qed.


(** * Further properties *)

(** ** The pieces of a split *)

Lemma free_snoc (D : ascii → bool) (tok : string) (c : ascii) :
  free D (JS.snoc tok c) = free D tok && negb (D c).
Proof.
  induction tok as [|a tok IH].
  - simpl. by rewrite andb_true_r.
  - change (JS.snoc (String a tok) c) with (String a (JS.snoc tok c)).
    cbn [free]. by rewrite IH, andb_assoc.
Qed.

Lemma ends_with_space_snoc (tok : string) (c : ascii) :
  ends_with_space (JS.snoc tok c) = JS.is_space c.
Proof.
  induction tok as [|a tok IH]; [done|].
  change (JS.snoc (String a tok) c) with (String a (JS.snoc tok c)).
  cbn [ends_with_space]. rewrite IH.
  destruct (JS.snoc tok c) eqn:E; [by destruct tok|done].
Qed.

Lemma match_delim_none_head (D : ascii → bool) (c : ascii) (s : string) :
  (∀ d, D d = true → JS.is_space d = false) →
  JS.match_delim D (String c s) = None → D c = false.
Proof.
  intros HD Hm. destruct (D c) eqn:Hc; [|done].
  unfold JS.match_delim in Hm. simpl in Hm.
  by rewrite (HD _ Hc), Hc in Hm.
Qed.

Lemma skip_spaces_no_leading_space (s : string) :
  no_leading_space (JS.skip_spaces s) = true.
Proof.
  induction s as [|c s IH]; [done|]. simpl.
  destruct (JS.is_space c) eqn:Hc; [done|]. simpl. by rewrite Hc.
Qed.

Lemma match_delim_no_leading_space (D : ascii → bool) (s rest : string) :
  JS.match_delim D s = Some rest → no_leading_space rest = true.
Proof.
  unfold JS.match_delim. destruct (JS.skip_spaces s) as [|c r]; [done|].
  destruct (D c); [|done]. intros [= <-].
  apply skip_spaces_no_leading_space.
Qed.

Lemma split_loop_free_pieces (D : ascii → bool) :
  (∀ d, D d = true → JS.is_space d = false) →
  ∀ n tok s,
    free D tok = true →
    Forall (fun x => free D x = true)
           (JS.split_loop (JS.match_delim D) n tok s).
Proof.
  intros HD. induction n as [|n IH]; intros tok s Htok.
  - destruct s; simpl; by constructor.
  - destruct s as [|c s]; [simpl; by constructor|].
    rewrite split_loop_S.
    destruct (JS.match_delim D (String c s)) as [rest|] eqn:E.
    + constructor; [done|]. by apply IH.
    + apply IH. rewrite free_snoc, Htok.
      by rewrite (match_delim_none_head _ _ _ HD E).
Qed.

Lemma split_loop_head (m : JS.matcher) :
  ∀ n tok s, ∃ u l, JS.split_loop m n tok s = (tok +:+ u) :: l.
Proof.
  induction n as [|n IH]; intros tok s.
  - exists "", []. rewrite append_nil_r. by destruct s.
  - destruct s as [|c s]; [exists "", []; by rewrite append_nil_r|].
    rewrite split_loop_S. destruct (m (String c s)) as [rest|].
    + exists "". eexists. by rewrite append_nil_r.
    + destruct (IH (JS.snoc tok c) s) as (u & l & ->).
      exists (String c u), l. by rewrite snoc_append.
Qed.

Lemma split_loop_first_piece (m : JS.matcher) (n : nat) (s : string) :
  no_leading_space s = true →
  ∃ x l, JS.split_loop m n "" s = x :: l ∧ no_leading_space x = true.
Proof.
  intros Hs. destruct n as [|n]; [exists "", []; by destruct s|].
  destruct s as [|c s]; [by exists "", []|].
  rewrite split_loop_S. destruct (m (String c s)) as [rest|].
  - by eexists "", _.
  - destruct (split_loop_head m n (JS.snoc "" c) s) as (u & l & ->).
    exists (JS.snoc "" c +:+ u), l. split; [done|].
    by rewrite snoc_append.
Qed.

Lemma split_loop_later_pieces (D : ascii → bool) :
  ∀ n tok s,
    Forall (fun x => no_leading_space x = true)
           (tail (JS.split_loop (JS.match_delim D) n tok s)).
Proof.
  induction n as [|n IH]; intros tok s.
  - destruct s; simpl; constructor.
  - destruct s as [|c s]; [simpl; constructor|].
    rewrite split_loop_S.
    destruct (JS.match_delim D (String c s)) as [rest|] eqn:E; [|apply IH].
    simpl tail. pose proof (IH "" rest) as Htl.
    destruct (split_loop_first_piece (JS.match_delim D) n rest)
      as (x & l & Hx & Hlead);
      [by eapply match_delim_no_leading_space|].
    rewrite Hx in *. by constructor.
Qed.

Lemma split_loop_earlier_pieces (D : ascii → bool) :
  ∀ n tok s,
    (ends_with_space tok = true → JS.match_delim D s = None) →
    Forall (fun x => ends_with_space x = false)
           (removelast (JS.split_loop (JS.match_delim D) n tok s)).
Proof.
  induction n as [|n IH]; intros tok s Hinv.
  - destruct s; simpl; constructor.
  - destruct s as [|c s]; [simpl; constructor|].
    rewrite split_loop_S.
    destruct (JS.match_delim D (String c s)) as [rest|] eqn:E.
    + pose proof (split_loop_nonempty (JS.match_delim D) n "" rest) as Hne.
      pose proof (IH "" rest ltac:(done)) as Hrest.
      destruct (JS.split_loop (JS.match_delim D) n "" rest) as [|y l];
        [done|].
      change (removelast (tok :: y :: l)) with (tok :: removelast (y :: l)).
      constructor; [|done].
      destruct (ends_with_space tok); [|done]. by specialize (Hinv eq_refl).
    + apply IH. rewrite ends_with_space_snoc. intros Hc.
      by rewrite <- (match_delim_skip D c s Hc).
Qed.

(** ** More on settings and plug-in lists *)

Lemma split_free (D : ascii → bool) (s : string) :
  free D s = true → JS.split (JS.match_delim D) s = [s].
Proof.
  intros Hs. unfold JS.split.
  destruct (split_loop_free _ _ Hs "" (String.length s)) as [->|?];
    [done|lia].
Qed.

(** X2: an entry with no colon in it is a switch: its whole text is the
    name and the value stored under the camel-cased name is the boolean
    true; so is an entry that ends after its colon. *)
Theorem bare_flag_is_true `{Packages} (flag : string) :
  (free is_comma_or_semicolon flag = true → free is_colon flag = true →
   ∀ cache (h : objects) o,
     h !! cache = Some o →
     parseSetting flag cache h
     = (cache, <[cache := <[camelcase flag := VBool true]> o]> h))
  ∧ (clean is_colon flag = true →
     ∀ a b,
       flagName (flag +:+ spaces a +:+ ":" +:+ spaces b) = flag
       ∧ coerce (flagValue (flag +:+ spaces a +:+ ":" +:+ spaces b))
         = VBool true).
Proof.
  split.
  - intros Hcomma Hcolon cache h o Hc.
    rewrite (parseSetting_fold _ _ _ _ Hc). unfold assignments, SPLITTER.
    rewrite (split_free _ _ Hcomma). cbn [map foldl].
    unfold flagName, flagValue, DELIMITER.
    by rewrite (split_free _ _ Hcolon).
  - intros Hclean a b.
    pose proof (split_first is_colon ":" flag a b "" eq_refl eq_refl Hclean
                  eq_refl "" _ (Nat.le_refl _)) as Hsplit.
    rewrite !append_nil_r in Hsplit.
    change (String ":" (spaces b)) with (":" +:+ spaces b) in Hsplit.
    unfold flagName, flagValue, JS.split, DELIMITER. by rewrite Hsplit.
Qed.

Lemma bare_flag_is_true_witness :
  parseSetting (H:=packages) "setext" 0 {[ 0 := ∅ ]}
  = (0, <[0 := <["setext"%string := VBool true]> ∅]> {[ 0 := ∅ ]})
  ∧ flagName "gfm :" = "gfm"%string
  ∧ coerce (flagValue "gfm :") = VBool true.
Proof.
  destruct (bare_flag_is_true (H:=packages) "setext") as [Hbare _].
  destruct (bare_flag_is_true (H:=packages) "gfm") as [_ Hcolon].
  split.
  - apply (Hbare eq_refl eq_refl 0 {[ 0 := ∅ ]} ∅). reflexivity.
  - apply (Hcolon eq_refl 1 0).
Defined.

(** X3: what is stored tells how the text read: a boolean comes only from
    the empty text, [true] or [false]; a number is [Number] of the text
    and never [NaN]; a string is the text itself, and then the text is
    none of the three words and [Number] makes [NaN] of it. *)
Theorem coerce_only_by_the_rules (value : string) :
  match coerce value with
  | VBool true => value = "" ∨ value = "true"
  | VBool false => value = "false"
  | VNum n =>
      n = JS.Number value ∧ n ≠ JS.NaN
      ∧ value ≠ "" ∧ value ≠ "true" ∧ value ≠ "false"
  | VStr s =>
      s = value ∧ JS.Number value = JS.NaN
      ∧ value ≠ "" ∧ value ≠ "true" ∧ value ≠ "false"
  end.
Proof.
  unfold coerce.
  destruct (String.eqb_spec value "true") as [->|Ht]; [by right|].
  destruct (String.eqb_spec value "") as [->|He]; [by left|].
  destruct (String.eqb_spec value "false") as [->|Hf]; [done|].
  simpl. destruct (JS.strict_eq _ _) eqn:E.
  - apply strict_eq_self in E. done.
  - split_and!; try done.
    destruct (JS.Number value) eqn:En; [done|..];
      by rewrite (proj2 (strict_eq_self _)) in E.
Qed.

Lemma dom_foldl_assign (writes : list (string * scalar)) :
  ∀ o : gmap string scalar,
    dom (foldl assign o writes) = dom o ∪ list_to_set writes.*1.
Proof.
  induction writes as [|[k v] writes IH]; intros o; simpl.
  - by rewrite (right_id_L ∅ (∪)).
  - rewrite IH. unfold assign. simpl. rewrite dom_insert_L.
    by rewrite (comm_L (∪) {[k]} (dom o)), (assoc_L (∪)).
Qed.

(** X4: [parseSetting] adds the camel-cased names of its entries to the
    object and removes none; a name it does not assign keeps its value,
    and no other object comes into being. *)
Theorem parseSetting_names `{Packages} (flags : string) (cache : ref)
    (h : objects) (o : gmap string scalar) :
  h !! cache = Some o →
  ∃ o',
    (parseSetting flags cache h).2 !! cache = Some o'
    ∧ dom o' = dom o ∪ list_to_set (assignments flags).*1
    ∧ (∀ k, k ∉ (assignments flags).*1 → o' !! k = o !! k)
    ∧ dom (parseSetting flags cache h).2 = dom h.
Proof.
  intros Hc. rewrite (parseSetting_fold _ _ _ _ Hc). simpl.
  eexists. split; [apply lookup_insert_eq|]. split_and!.
  - apply dom_foldl_assign.
  - intros k. apply foldl_assign_other.
  - rewrite dom_insert_L. apply elem_of_dom_2 in Hc.
    apply subseteq_union_1_L. by apply singleton_subseteq_l.
Qed.

Lemma parseSetting_names_witness :
  ∃ o',
    (parseSetting (H:=packages) "rule-spaces, bullet: *" 0
       {[ 0 := {[ "gfm"%string := VBool false ]} ]}).2 !! 0 = Some o'
    ∧ dom o'
      = dom ({[ "gfm"%string := VBool false ]} : gmap string scalar)
        ∪ list_to_set (assignments (H:=packages) "rule-spaces, bullet: *").*1
    ∧ (∀ k, k ∉ (assignments (H:=packages) "rule-spaces, bullet: *").*1 →
            o' !! k
            = ({[ "gfm"%string := VBool false ]} : gmap string scalar) !! k)
    ∧ dom (parseSetting (H:=packages) "rule-spaces, bullet: *" 0
             {[ 0 := {[ "gfm"%string := VBool false ]} ]}).2
      = dom ({[ 0 := {[ "gfm"%string := VBool false ]} ]} : objects).
Proof.
  apply (parseSetting_names (H:=packages) "rule-spaces, bullet: *" 0
           {[ 0 := {[ "gfm"%string := VBool false ]} ]}
           {[ "gfm"%string := VBool false ]}).
  reflexivity.
Defined.

Lemma useOption_snoc (raws : list string) (raw : string) (cache : ref)
    (h : arrays) :
  useOption (raws ++ [raw]) cache h
  = parsePlugin raw (useOption raws cache h).1 (useOption raws cache h).2.
Proof. unfold useOption, accumulate. by rewrite foldl_app. Qed.

Lemma useOption_keeps (raws : list string) (cache : ref) (h : arrays)
    (r : ref) (xs : list string) :
  h !! r = Some xs → (useOption raws cache h).2 !! r = Some xs.
Proof.
  induction raws as [|raw raws IH] using rev_ind; [done|].
  intros Hr. rewrite useOption_snoc. unfold parsePlugin. simpl.
  rewrite lookup_insert_ne; [by apply IH|].
  intros <-. specialize (IH Hr).
  apply elem_of_dom_2 in IH. by apply is_fresh in IH.
Qed.

(** X5: however many [--use] options are given, every array there was
    before, the default one among them, still holds what it held, and
    after at least one option the list of the program is an array that
    did not exist before. *)
Theorem useOption_keeps_arrays (raws : list string) (cache : ref)
    (h : arrays) :
  (∀ r xs, h !! r = Some xs → (useOption raws cache h).2 !! r = Some xs)
  ∧ (raws ≠ [] → h !! (useOption raws cache h).1 = None).
Proof.
  split; [intros r xs; apply useOption_keeps|].
  destruct raws as [|raw raws _] using rev_ind; [done|]. intros _.
  rewrite useOption_snoc. unfold parsePlugin. simpl.
  destruct (h !! fresh _) as [xs|] eqn:E; [|done].
  apply (useOption_keeps raws cache) in E.
  apply elem_of_dom_2 in E. by apply is_fresh in E.
Qed.

Lemma useOption_keeps_arrays_witness :
  ({[ 0 := ["p0"%string] ]} : arrays)
    !! (useOption ["p1"; "p2,p3"]%string 0 {[ 0 := ["p0"%string] ]}).1
  = None.
Proof.
  apply (useOption_keeps_arrays ["p1"; "p2,p3"]%string 0
           {[ 0 := ["p0"%string] ]}).
  discriminate.
Defined.

(** ** Where [findRoot] stops *)

Lemma station_removelast `{Host} (parts : list string)
    (location : string) (j : nat) :
  station (removelast parts) (JS.join seperator (removelast parts)) j
  = station parts location (S j).
Proof.
  assert (Hlast : removelast parts = take (length parts - 1) parts).
  { rewrite removelast_firstn_len. f_equal. lia. }
  unfold station. destruct j; [by rewrite Hlast|].
  rewrite Hlast, length_take, take_take. do 2 f_equal. lia.
Qed.

Lemma findRoot_loop_stops `{Host} :
  ∀ fuel parts location,
    0 < length parts → length parts ≤ S fuel →
    ∃ i,
      i < length parts
      ∧ findRoot_loop fuel parts location
        = (take (length parts - i) parts, station parts location i)
      ∧ (∀ j, j < i →
           existsSync (join [station parts location j; "package.json"%string])
           = false)
      ∧ (existsSync (join [station parts location i; "package.json"%string])
         = true
         ∨ S i = length parts).
Proof.
  induction fuel as [|fuel IH]; intros parts location Hpos Hfuel.
  - exists 0. rewrite findRoot_loop_stop.
    + rewrite Nat.sub_0_r, firstn_all. split_and!; [done|done|lia|right; lia].
    + apply andb_false_iff. right. apply Nat.ltb_ge. lia.
  - destruct (negb (existsSync (join [location; "package.json"%string]))
              && (1 <? length parts)) eqn:Hguard.
    + apply andb_prop in Hguard as [Hnone%negb_true_iff Hmore%Nat.ltb_lt].
      assert (Hlen : length (removelast parts) = length parts - 1).
      { rewrite removelast_firstn_len, length_take. lia. }
      destruct (IH (removelast parts)
                  (JS.join seperator (removelast parts)))
        as (i & Hi & Hloop & Hbefore & Hhere); [lia..|].
      exists (S i). split; [lia|]. split; [|split].
      * simpl findRoot_loop. rewrite Hnone.
        apply Nat.ltb_lt in Hmore as ->. cbn [negb andb].
        rewrite Hloop, (station_removelast parts location).
        f_equal. rewrite Hlen, removelast_firstn_len, take_take.
        f_equal. lia.
      * intros [|j] Hj; [done|].
        rewrite <- (station_removelast parts location). apply Hbefore. lia.
      * rewrite <- (station_removelast parts location).
        destruct Hhere as [?|?]; [by left|right; lia].
    + exists 0. rewrite findRoot_loop_stop by done.
      rewrite Nat.sub_0_r, firstn_all. split_and!; [done|done|lia|].
      apply andb_false_iff in Hguard as [Hg%negb_false_iff|Hg%Nat.ltb_ge];
        [by left|right; lia].
Qed.

(** X7: [findRoot] always returns the working directory or what is left
    of it after dropping components from its end; no directory nearer to
    the working directory than the one returned holds a [package.json],
    and the one returned holds it unless only the first component is
    left. *)
Theorem findRoot_is_ancestor `{Host} :
  ∃ i,
    i < length (JS.split (JS.strip_prefix seperator) cwd)
    ∧ findRoot = ancestor i
    ∧ (∀ j, j < i →
         existsSync (join [ancestor j; "package.json"%string]) = false)
    ∧ (existsSync (join [ancestor i; "package.json"%string]) = true
       ∨ S i = length (JS.split (JS.strip_prefix seperator) cwd)).
Proof.
  pose proof (split_loop_nonempty (JS.strip_prefix seperator)
                (String.length cwd) "" cwd) as Hne.
  fold (JS.split (JS.strip_prefix seperator) cwd) in Hne.
  destruct (findRoot_loop_stops
              (length (JS.split (JS.strip_prefix seperator) cwd))
              (JS.split (JS.strip_prefix seperator) cwd) cwd)
    as (i & Hi & Hloop & Hbefore & Hhere).
  { destruct (JS.split _ cwd); [done|simpl; lia]. }
  { lia. }
  exists i. split; [done|]. split; [|by split].
  unfold findRoot. rewrite Hloop, length_take.
  destruct (0 <? _) eqn:E; [done|]. apply Nat.ltb_ge in E. lia.
Qed.

(** ** The stages of [run] *)

Lemma bind_calling_ok {A B} (c : call) (r : thrown + A) (a : A)
    (f : A → proc B) (w : world) :
  r = inr a → bind (calling c r) f w = f a (logs [c] w).
Proof. by intros ->. Qed.

Lemma bind_calling_throw {A B} (c : call) (r : thrown + A) (e : thrown)
    (f : A → proc B) (w : world) :
  r = inl e → bind (calling c r) f w = (Throw e, logs [c] w).
Proof. by intros ->. Qed.

Lemma bind_try_ok {A B} (c : call) (r : thrown + A) (a : A)
    (f : A → proc B) (w : world) :
  r = inr a → bind (try_catch (calling c r) fail) f w = f a (logs [c] w).
Proof. by intros ->. Qed.

Lemma bind_try_fail {A B} (c : call) (r : thrown + A) (e : thrown)
    (f : A → proc B) (w : world) :
  r = inl e →
  bind (try_catch (calling c r) fail) f w
  = (Exit 1%Z, to_err (diagnostic e +:+ nl) (logs [c] w)).
Proof. by intros ->. Qed.

Lemma bind_mapM_find_ok `{Host} {B} (plugins : list string)
    (modules : list plugin) (f : list plugin → proc B) :
  Forall2 (fun p module => require (candidate p) = inr module)
          plugins modules →
  ∀ w,
    bind (mapM find plugins) f w
    = f modules (logs (concat (map lookup_trace plugins)) w).
Proof.
  intros Hok w. rewrite bind_unfold.
  enough (mapM find plugins w
          = (Return modules, logs (concat (map lookup_trace plugins)) w))
    as -> by done.
  revert w. induction Hok as [|p module ps ms Hp _ IH]; intros w.
  - by rewrite logs_nil.
  - rewrite mapM_find_cons, bind_unfold, find_spec, Hp, bind_unfold, IH.
    simpl. by rewrite logs_logs.
Qed.

(** The world after the calls that come before the tree is turned into
    text. *)
Lemma run_parsed `{Host} (program : invocation) (value : string)
    (filename : option string) (w : world) (cfg : configuration)
    (settings : gmap string scalar) (plugins : list string)
    (modules : list plugin) (parser' : parser) (doc : tree) :
  Configuration (program_config program) (program_setting program)
    (program_use program) = inr cfg →
  getConfiguration cfg filename = inr (settings, plugins) →
  Forall2 (fun p module => require (candidate p) = inr module)
          plugins modules →
  mdast_use mdast modules = inr parser' →
  mdast_parse parser' value settings = inr doc →
  run program value filename w
  = bind (if program_ast program
          then calling Serialize (JSON_stringify doc)
          else calling Stringify (mdast_stringify parser' doc settings))
      (fun doc =>
         match program_output program with
         | Some path =>
             if truthy (Some path) then write path doc else stdout_write doc
         | None => stdout_write doc
         end)
      (logs ([NewConfiguration; GetConfiguration filename]
             ++ concat (map lookup_trace plugins) ++ [Use; Parse]) w).
Proof.
  intros Hcfg Hget Hok Huse Hparse. unfold run.
  rewrite (bind_try_ok _ _ _ _ _ Hcfg).
  rewrite (bind_calling_ok _ _ _ _ _ Hget). cbn [fst snd].
  rewrite (bind_mapM_find_ok _ _ _ Hok).
  rewrite (bind_calling_ok _ _ _ _ _ Huse).
  rewrite (bind_try_ok _ _ _ _ _ Hparse).
  by rewrite !logs_logs.
Qed.

(** X8: when nothing fails, [run] goes through its stages once each and
    in this order: the configuration is built and asked for the file, the
    plug-ins are looked up and loaded in the order of the list, they are
    attached, the text is parsed, the tree is turned into text ([--ast]:
    by [JSON.stringify], otherwise by the engine), and the text is written
    to the file of [--output] or else to standard output. *)
Theorem run_stages_in_order `{Host} (program : invocation) (value : string)
    (filename : option string) (w : world) (cfg : configuration)
    (settings : gmap string scalar) (plugins : list string)
    (modules : list plugin) (parser' : parser) (doc : tree)
    (text' : string) :
  Configuration (program_config program) (program_setting program)
    (program_use program) = inr cfg →
  getConfiguration cfg filename = inr (settings, plugins) →
  Forall2 (fun p module => require (candidate p) = inr module)
          plugins modules →
  mdast_use mdast modules = inr parser' →
  mdast_parse parser' value settings = inr doc →
  (if program_ast program then JSON_stringify doc
   else mdast_stringify parser' doc settings) = inr text' →
  (∀ path, program_output program = Some path → writeFile path text' = None) →
  let before :=
    [NewConfiguration; GetConfiguration filename]
    ++ concat (map (fun p => probes p ++ [Require (candidate p)]) plugins)
    ++ [Use; Parse; if program_ast program then Serialize else Stringify] in
  run program value filename w
  = (Return (),
     match program_output program with
     | Some path =>
         if truthy (Some path)
         then to_file path text' (logs (before ++ [WriteFile path]) w)
         else to_out text' (logs before w)
     | None => to_out text' (logs before w)
     end).
Proof.
  intros Hcfg Hget Hok Huse Hparse Htext Hwrite before.
  rewrite (run_parsed _ _ _ _ _ _ _ _ _ _ Hcfg Hget Hok Huse Hparse).
  assert (Hlogs : ∀ c,
    logs [c] (logs ([NewConfiguration; GetConfiguration filename]
                    ++ concat (map lookup_trace plugins) ++ [Use; Parse]) w)
    = logs ([NewConfiguration; GetConfiguration filename]
            ++ concat (map lookup_trace plugins) ++ [Use; Parse; c]) w).
  { intros c. rewrite logs_logs. f_equal. by rewrite <- !app_assoc. }
  destruct (program_ast program);
    rewrite (bind_calling_ok _ _ _ _ _ Htext), Hlogs;
    (destruct (program_output program) as [path|]; [|done]);
    (destruct (truthy (Some path)); [|done]);
    unfold write; rewrite (Hwrite path eq_refl);
    by rewrite log_logs, logs_logs.
Qed.

Lemma run_stages_in_order_witness :
  let H := machine "/a/b" ["/a/package.json"; "/a/toc.js"]%string in
  let program :=
    {| isTTY := true; stdin_data := [];
       program_output := Some "out.md"%string; program_config := None;
       program_setting := ∅; program_use := ["toc"%string];
       program_ast := false; program_settings := false;
       program_args := ["readme.md"%string] |} in
  run program "# Title" (Some "/a/b/readme.md"%string) start
  = (Return (),
     {| out := []; err := [];
        written := [("out.md", "# Title")]%string;
        calls := [NewConfiguration;
                  GetConfiguration (Some "/a/b/readme.md"%string);
                  Exists "/a/toc"; Exists "/a/toc.js"; Require "/a/toc";
                  Use; Parse; Stringify; WriteFile "out.md"] |}).
Proof.
  intros H program.
  apply (run_stages_in_order (H:=H) program "# Title"
           (Some "/a/b/readme.md"%string) start
           (∅, ["toc"%string]) ∅ ["toc"%string] ["/a/toc"%string]
           ["/a/toc"%string] "# Title"%string "# Title"%string).
  - reflexivity.
  - reflexivity.
  - repeat constructor.
  - reflexivity.
  - reflexivity.
  - reflexivity.
  - reflexivity.
Defined.

(** X9: the three failures [run] catches itself, a constructor of the
    configuration that throws, a parse that throws and a file that cannot
    be written, end the process with code 1 and the report of [fail], at
    the stage they happen: after a failed configuration no plug-in is
    looked up, after a failed parse nothing is turned into text, and a
    failed write leaves standard output alone. *)
Theorem caught_failures_end_the_process `{Host} (program : invocation)
    (value : string) (filename : option string) (w : world) :
  (∀ e,
     Configuration (program_config program) (program_setting program)
       (program_use program) = inl e →
     run program value filename w
     = (Exit 1%Z, to_err (diagnostic e +:+ nl) (logs [NewConfiguration] w)))
  ∧ (∀ cfg settings plugins modules parser' e,
       Configuration (program_config program) (program_setting program)
         (program_use program) = inr cfg →
       getConfiguration cfg filename = inr (settings, plugins) →
       Forall2 (fun p module => require (candidate p) = inr module)
               plugins modules →
       mdast_use mdast modules = inr parser' →
       mdast_parse parser' value settings = inl e →
       run program value filename w
       = (Exit 1%Z,
          to_err (diagnostic e +:+ nl)
            (logs ([NewConfiguration; GetConfiguration filename]
                   ++ concat (map (fun p => probes p ++ [Require (candidate p)])
                                  plugins)
                   ++ [Use; Parse]) w)))
  ∧ (∀ cfg settings plugins modules parser' doc text' path e,
       Configuration (program_config program) (program_setting program)
         (program_use program) = inr cfg →
       getConfiguration cfg filename = inr (settings, plugins) →
       Forall2 (fun p module => require (candidate p) = inr module)
               plugins modules →
       mdast_use mdast modules = inr parser' →
       mdast_parse parser' value settings = inr doc →
       (if program_ast program then JSON_stringify doc
        else mdast_stringify parser' doc settings) = inr text' →
       program_output program = Some path → path ≠ "" →
       writeFile path text' = Some e →
       run program value filename w
       = (Exit 1%Z,
          to_err (diagnostic e +:+ nl)
            (logs ([NewConfiguration; GetConfiguration filename]
                   ++ concat (map (fun p => probes p ++ [Require (candidate p)])
                                  plugins)
                   ++ [Use; Parse;
                       if program_ast program then Serialize else Stringify;
                       WriteFile path]) w))).
Proof.
  split_and!.
  - intros e Hcfg. unfold run. by rewrite (bind_try_fail _ _ _ _ _ Hcfg).
  - intros cfg settings plugins modules parser' e Hcfg Hget Hok Huse Hparse.
    unfold run.
    rewrite (bind_try_ok _ _ _ _ _ Hcfg).
    rewrite (bind_calling_ok _ _ _ _ _ Hget). cbn [fst snd].
    rewrite (bind_mapM_find_ok _ _ _ Hok).
    rewrite (bind_calling_ok _ _ _ _ _ Huse).
    rewrite (bind_try_fail _ _ _ _ _ Hparse).
    by rewrite !logs_logs.
  - intros cfg settings plugins modules parser' doc text' path e
      Hcfg Hget Hok Huse Hparse Htext Hout Hpath Hwrite.
    rewrite (run_parsed _ _ _ _ _ _ _ _ _ _ Hcfg Hget Hok Huse Hparse).
    rewrite Hout. apply String.eqb_neq in Hpath.
    destruct (program_ast program);
      rewrite (bind_calling_ok _ _ _ _ _ Htext);
      unfold truthy, write; rewrite Hpath, Hwrite; cbn [negb];
      rewrite fail_spec, log_logs, !logs_logs;
      by rewrite <- !app_assoc.
Qed.

Lemma caught_failures_end_the_process_witness :
  let program :=
    {| isTTY := false; stdin_data := ["# Title"%string];
       program_output := None; program_config := None;
       program_setting := ∅; program_use := ["toc"%string];
       program_ast := false; program_settings := false;
       program_args := [] |} in
  run (H:=faulty "/a/b" ["/a/toc.js"%string] ["Configuration"%string])
      program "# Title" None start
  = (Exit 1%Z,
     to_err (diagnostic (crash "Configuration") +:+ nl)
       (logs [NewConfiguration] start))
  ∧ run (H:=faulty "/a/b" ["/a/b/toc.js"%string] ["parse"%string])
        program "# Title" None start
    = (Exit 1%Z,
       {| out := []; err := [diagnostic (crash "parse") +:+ nl];
          written := [];
          calls := [NewConfiguration; GetConfiguration None;
                    Exists "/a/b/toc"; Exists "/a/b/toc.js";
                    Require "/a/b/toc"; Use; Parse] |}).
Proof.
  intros program. split.
  - apply (caught_failures_end_the_process
             (H:=faulty "/a/b" ["/a/toc.js"%string] ["Configuration"%string])).
    reflexivity.
  - apply (proj1 (proj2 (caught_failures_end_the_process
             (H:=faulty "/a/b" ["/a/b/toc.js"%string] ["parse"%string])
             program "# Title" None start))
             (∅, ["toc"%string]) ∅ ["toc"%string] ["/a/b/toc"%string]
             ["/a/b/toc"%string]);
      try reflexivity.
    repeat constructor.
Defined.

Lemma main_piped `{Host} (program : invocation) :
  program_settings program = false → isTTY program = false →
  program_args program = [] →
  main program = on_data program (stdin_data program).
Proof. intros Hset Htty Hargs. unfold main. by rewrite Hset, Htty, Hargs. Qed.

Lemma on_data_cons `{Host} (program : invocation) (value : string)
    (data : list string) (w : world) :
  on_data program (value :: data) w
  = bind (run program value None) (fun _ => on_data program data) w.
Proof. reflexivity. Qed.

(** X10: three calls of [run] stand outside every [try]: when
    [getConfiguration], [use] or the step that turns the tree into text
    throws, [fail] is not called; the exception leaves [run] with nothing
    written to standard output, to standard error or to a file, and it is
    Node that ends the process, with its own code and report. *)
Theorem uncaught_failures_leave_run `{Host} :
  (∀ program value filename w cfg e,
     Configuration (program_config program) (program_setting program)
       (program_use program) = inr cfg →
     getConfiguration cfg filename = inl e →
     run program value filename w
     = (Throw e, logs [NewConfiguration; GetConfiguration filename] w))
  ∧ (∀ program value filename w cfg settings plugins modules e,
       Configuration (program_config program) (program_setting program)
         (program_use program) = inr cfg →
       getConfiguration cfg filename = inr (settings, plugins) →
       Forall2 (fun p module => require (candidate p) = inr module)
               plugins modules →
       mdast_use mdast modules = inl e →
       run program value filename w
       = (Throw e,
          logs ([NewConfiguration; GetConfiguration filename]
                ++ concat (map (fun p => probes p ++ [Require (candidate p)])
                               plugins)
                ++ [Use]) w))
  ∧ (∀ program value filename w cfg settings plugins modules parser' doc e,
       Configuration (program_config program) (program_setting program)
         (program_use program) = inr cfg →
       getConfiguration cfg filename = inr (settings, plugins) →
       Forall2 (fun p module => require (candidate p) = inr module)
               plugins modules →
       mdast_use mdast modules = inr parser' →
       mdast_parse parser' value settings = inr doc →
       (if program_ast program then JSON_stringify doc
        else mdast_stringify parser' doc settings) = inl e →
       run program value filename w
       = (Throw e,
          logs ([NewConfiguration; GetConfiguration filename]
                ++ concat (map (fun p => probes p ++ [Require (candidate p)])
                               plugins)
                ++ [Use; Parse;
                    if program_ast program then Serialize else Stringify])
               w))
  ∧ (∀ program value rest e w',
       program_settings program = false → isTTY program = false →
       program_args program = [] →
       stdin_data program = value :: rest →
       run program value None start = (Throw e, w') →
       node program = (uncaughtCode, to_err (uncaughtReport e) w')).
Proof.
  split_and!.
  - intros program value filename w cfg e Hcfg Hget. unfold run.
    rewrite (bind_try_ok _ _ _ _ _ Hcfg).
    rewrite (bind_calling_throw _ _ _ _ _ Hget). by rewrite logs_logs.
  - intros program value filename w cfg settings plugins modules e
      Hcfg Hget Hok Huse.
    unfold run.
    rewrite (bind_try_ok _ _ _ _ _ Hcfg).
    rewrite (bind_calling_ok _ _ _ _ _ Hget). cbn [fst snd].
    rewrite (bind_mapM_find_ok _ _ _ Hok).
    rewrite (bind_calling_throw _ _ _ _ _ Huse). by rewrite !logs_logs.
  - intros program value filename w cfg settings plugins modules parser' doc
      e Hcfg Hget Hok Huse Hparse Htext.
    rewrite (run_parsed _ _ _ _ _ _ _ _ _ _ Hcfg Hget Hok Huse Hparse).
    destruct (program_ast program);
      rewrite (bind_calling_throw _ _ _ _ _ Htext), logs_logs;
      by rewrite <- !app_assoc.
  - intros program value rest e w' Hset Htty Hargs Hdata Hrun.
    unfold node. rewrite (main_piped _ Hset Htty Hargs), Hdata.
    by rewrite on_data_cons, bind_unfold, Hrun.
Qed.

Lemma uncaught_failures_leave_run_witness :
  let program :=
    {| isTTY := false; stdin_data := ["# Title"; "more"]%string;
       program_output := None; program_config := None;
       program_setting := ∅; program_use := [];
       program_ast := false; program_settings := false;
       program_args := [] |} in
  run (H:=faulty "/a/b" [] ["stringify"%string]) program "# Title" None start
  = (Throw (crash "stringify"),
     {| out := []; err := []; written := [];
        calls := [NewConfiguration; GetConfiguration None; Use; Parse;
                  Stringify] |})
  ∧ node (H:=faulty "/a/b" [] ["stringify"%string]) program
    = (8%Z,
       {| out := []; err := [diagnostic (crash "stringify")]; written := [];
          calls := [NewConfiguration; GetConfiguration None; Use; Parse;
                    Stringify] |}).
Proof.
  intros program.
  destruct (uncaught_failures_leave_run
              (H:=faulty "/a/b" [] ["stringify"%string]))
    as (_ & _ & Htext & Hnode).
  split.
  - apply (Htext program "# Title"%string None start (∅, []) ∅ []
             ([] : list string) ([] : list string) "# Title"%string);
      try reflexivity.
    constructor.
  - apply (Hnode program "# Title"%string ["more"%string]
             (crash "stringify")
             {| out := []; err := []; written := [];
                calls := [NewConfiguration; GetConfiguration None; Use;
                          Parse; Stringify] |});
      reflexivity.
Defined.

(** ** What [run] calls and where its text goes *)

Lemma noting_ret {A} (P : call → Prop) (a : A) : noting P (mret a : proc A).
Proof. intros w. exists []. by rewrite app_nil_r. Qed.

Lemma noting_calling {A} (P : call → Prop) (c : call) (r : thrown + A) :
  P c → noting P (calling c r).
Proof. intros Hc w. exists [c]. split; [done|by constructor]. Qed.

Lemma noting_try_calling {A} (P : call → Prop) (c : call)
    (r : thrown + A) :
  P c → noting P (try_catch (calling c r) fail).
Proof.
  intros Hc w. exists [c]. split; [by destruct r|by constructor].
Qed.

Lemma noting_bind {A B} (P : call → Prop) (m : proc A) (f : A → proc B) :
  noting P m → (∀ a, noting P (f a)) → noting P (bind m f).
Proof.
  intros Hm Hf w. destruct (Hm w) as (cs & Hcs & HP).
  rewrite bind_unfold. destruct (m w) as [[a|code|e] w1]; simpl in Hcs.
  - destruct (Hf a w1) as (cs' & Hcs' & HP').
    exists (cs ++ cs'). rewrite Hcs', Hcs, app_assoc.
    split; [done|by apply Forall_app].
  - by exists cs.
  - by exists cs.
Qed.

Lemma noting_find `{Host} (P : call → Prop) (pathlike : string) :
  (∀ path, P (Exists path)) → (∀ path, P (Require path)) →
  noting P (find pathlike).
Proof.
  intros He Hr w. exists (lookup_trace pathlike). rewrite find_spec.
  split; [by destruct (require _)|].
  unfold lookup_trace, probes. apply Forall_app. split; [|by constructor].
  repeat (first [done | constructor | destruct (existsSync _)]).
Qed.

Lemma noting_mapM_find `{Host} (P : call → Prop) (ps : list string) :
  (∀ path, P (Exists path)) → (∀ path, P (Require path)) →
  noting P (mapM find ps).
Proof.
  intros He Hr. induction ps as [|p ps IH]; [apply noting_ret|].
  rewrite mapM_find_cons.
  apply noting_bind; [by apply noting_find|]. intros y.
  apply noting_bind; [done|]. intros k. apply noting_ret.
Qed.

Lemma noting_stdout_write (P : call → Prop) (doc : string) :
  noting P (stdout_write doc).
Proof. intros w. exists []. by rewrite app_nil_r. Qed.

Lemma noting_write `{Host} (P : call → Prop) (path doc : string) :
  P (WriteFile path) → noting P (write path doc).
Proof.
  intros Hp w. exists [WriteFile path]. unfold write.
  split; [by destruct (writeFile path doc)|by constructor].
Qed.

(** X11: whatever becomes of it, [run] only adds to the calls made so
    far, and among those it adds the tree is turned into text in one way
    only, by [JSON.stringify] with [--ast] and by the engine without; no
    file is read, and no file is written but the one named by a non-empty
    [--output]. *)
Theorem run_calls_are_allowed `{Host} (program : invocation)
    (value : string) (filename : option string) (w : world) :
  ∃ cs,
    calls (run program value filename w).2 = calls w ++ cs
    ∧ Forall (allowed program) cs.
Proof.
  revert w. change (noting (allowed program) (run program value filename)).
  unfold run.
  apply noting_bind; [by apply noting_try_calling|]. intros cfg.
  apply noting_bind; [by apply noting_calling|]. intros options.
  apply noting_bind; [by apply noting_mapM_find|]. intros plugins.
  apply noting_bind; [by apply noting_calling|]. intros parser'.
  apply noting_bind; [by apply noting_try_calling|]. intros doc.
  apply noting_bind.
  { destruct (program_ast program) eqn:E; by apply noting_calling. }
  intros text'. destruct (program_output program) as [path|] eqn:E;
    [|apply noting_stdout_write].
  destruct (truthy (Some path)) eqn:Ht; [|apply noting_stdout_write].
  apply noting_write. simpl. rewrite E. split; [done|].
  simpl in Ht. by apply negb_true_iff, String.eqb_neq in Ht.
Qed.

Lemma bind_return_silent {A B} (m : proc A) (f : A → proc B) (w : world)
    (b : B) (w' : world) :
  silent m → bind m f w = (Return b, w') →
  ∃ a w1, unchanged w w1 ∧ f a w1 = (Return b, w').
Proof.
  intros [_ Hm]. rewrite bind_unfold.
  destruct (m w) as [[a|code|e] w1] eqn:E; [|done..].
  intros Hf. exists a, w1. split; [by eapply Hm|done].
Qed.

(** X12: when [run] returns, the text has been delivered once and in one
    place: with a non-empty [--output], in that file and not on standard
    output; otherwise, an empty [--output] included, on standard output
    and in no file; and standard error is as it was. *)
Theorem run_delivers_once `{Host} (program : invocation) (value : string)
    (filename : option string) (w w' : world) :
  run program value filename w = (Return (), w') →
  delivered program w w'.
Proof.
  unfold run. intros Hrun.
  apply bind_return_silent in Hrun as (cfg & w1 & (Ho1 & He1 & Hw1) & Hrun);
    [|auto with quiet].
  apply bind_return_silent in Hrun as (opts & w2 & (Ho2 & He2 & Hw2) & Hrun);
    [|auto with quiet].
  apply bind_return_silent in Hrun as (mods & w3 & (Ho3 & He3 & Hw3) & Hrun);
    [|auto with quiet].
  apply bind_return_silent in Hrun as (prs & w4 & (Ho4 & He4 & Hw4) & Hrun);
    [|auto with quiet].
  apply bind_return_silent in Hrun as (doc & w5 & (Ho5 & He5 & Hw5) & Hrun);
    [|auto with quiet].
  apply bind_return_silent in Hrun as (txt & w6 & (Ho6 & He6 & Hw6) & Hrun);
    [|destruct (program_ast program); auto with quiet].
  assert (Ho : out w6 = out w) by congruence.
  assert (He : err w6 = err w) by congruence.
  assert (Hw : written w6 = written w) by congruence.
  unfold delivered.
  assert (Hstd : stdout_write txt w6 = (Return (), w') →
                 err w' = err w
                 ∧ written w' = written w ∧ ∃ d, out w' = out w ++ [d]).
  { intros [= <-]. simpl. rewrite Ho, He, Hw. eauto. }
  destruct (program_output program) as [path|].
  - destruct (truthy (Some path)).
    + unfold write in Hrun. destruct (writeFile path txt); [done|].
      injection Hrun as <-. simpl. rewrite Ho, He, Hw. eauto.
    + destruct (Hstd Hrun) as (? & ? & ?). eauto.
  - destruct (Hstd Hrun) as (? & ? & ?). eauto.
Qed.

Lemma run_delivers_once_witness :
  let H := machine "/a/b" ["/a/package.json"%string] in
  let program :=
    {| isTTY := false; stdin_data := ["# Title"%string];
       program_output := Some ""%string; program_config := None;
       program_setting := ∅; program_use := [];
       program_ast := true; program_settings := false;
       program_args := [] |} in
  delivered program start
    {| out := ["# Title"%string]; err := []; written := [];
       calls := [NewConfiguration; GetConfiguration None; Use; Parse;
                 Serialize] |}.
Proof.
  intros H program.
  apply (run_delivers_once (H:=H) program "# Title" None start).
  reflexivity.
Defined.

(** ** Where the input comes from *)

Lemma on_data_with_args `{Host} (program : invocation)
    (args : list string) (data : list string) :
  on_data (with_args program args) data = on_data program data.
Proof.
  induction data as [|value data IH]; [done|]. simpl. by rewrite IH.
Qed.

(** X13: on a terminal, with no file argument but a non-empty [--output],
    the program does what it does when that path is given as the file
    argument too: the file named by [--output] is the input. *)
Theorem output_is_input_when_no_file `{Host} (program : invocation)
    (path : string) (w : world) :
  program_settings program = false →
  isTTY program = true →
  program_args program = [] →
  program_output program = Some path →
  path ≠ "" →
  main program w = main (with_args program [path]) w.
Proof.
  intros Hset Htty Hargs Hout Hpath%String.eqb_neq.
  unfold main. cbn [with_args isTTY program_settings program_args
                    program_output stdin_data].
  rewrite Hset, Htty, Hargs, Hout. unfold truthy at 1. rewrite Hpath.
  cbn [negb andb orb length Nat.eqb app].
  by rewrite on_data_with_args.
Qed.

Lemma output_is_input_when_no_file_witness :
  let H := machine "/a/b" ["/a/b/readme.md"%string] in
  let program :=
    {| isTTY := true; stdin_data := [];
       program_output := Some "readme.md"%string; program_config := None;
       program_setting := ∅; program_use := [];
       program_ast := false; program_settings := false;
       program_args := [] |} in
  main program start = main (with_args program ["readme.md"%string]) start.
Proof.
  intros H program.
  apply (output_is_input_when_no_file (H:=H) program "readme.md" start);
    [reflexivity..|discriminate].
Defined.

(** X14: on a terminal, two or more file arguments are refused like a
    file argument with piped input: code 1, [mdast currently expects one
    file.] on standard error, and nothing read or loaded. *)
Theorem several_files_are_rejected `{Host} (program : invocation) :
  program_settings program = false →
  isTTY program = true →
  2 ≤ length (program_args program) →
  node program
  = (1%Z,
     {| out := []; err := ["mdast currently expects one file." +:+ nl];
        written := []; calls := [] |}).
Proof.
  intros Hset Htty Hargs. unfold node, main. rewrite Hset, Htty.
  destruct (program_args program) as [|f [|g files]];
    [simpl in Hargs; lia..|done].
Qed.

Lemma several_files_are_rejected_witness :
  @node (machine "/a/b" ["/a/b/one.md"; "/a/b/two.md"]%string)
    {| isTTY := true; stdin_data := [];
       program_output := None; program_config := None;
       program_setting := ∅; program_use := [];
       program_ast := false; program_settings := false;
       program_args := ["one.md"; "two.md"]%string |}
  = (1%Z,
     {| out := []; err := ["mdast currently expects one file." +:+ nl];
        written := []; calls := [] |}).
Proof.
  apply (several_files_are_rejected
           (H:=machine "/a/b" ["/a/b/one.md"; "/a/b/two.md"]%string));
    [reflexivity|reflexivity|simpl; lia].
Defined.

(** X15: with piped input on which no data ever arrives, [run] is never
    called: nothing is configured, loaded or written, and the process
    ends with code 0. *)
Theorem silent_pipe_does_nothing `{Host} (program : invocation) :
  program_settings program = false →
  isTTY program = false →
  program_args program = [] →
  stdin_data program = [] →
  node program = (0%Z, start).
Proof.
  intros Hset Htty Hargs Hdata. unfold node.
  by rewrite (main_piped _ Hset Htty Hargs), Hdata.
Qed.

Lemma silent_pipe_does_nothing_witness :
  @node (machine "/a/b" ["/a/package.json"%string])
    {| isTTY := false; stdin_data := [];
       program_output := Some "out.md"%string; program_config := None;
       program_setting := ∅; program_use := ["toc"%string];
       program_ast := false; program_settings := false;
       program_args := [] |}
  = (0%Z, start).
Proof.
  apply (silent_pipe_does_nothing
           (H:=machine "/a/b" ["/a/package.json"%string]));
    reflexivity.
Defined.

(** X16: with [--settings] the process lists the settings on standard
    output and ends with code 0, the same whatever else the command line
    and standard input hold: nothing is read, configured, loaded or
    written to a file or to standard error. *)
Theorem settings_listing_is_all `{Host} (program : invocation) :
  program_settings program = true →
  node program = (0%Z, (on_settings start).2)
  ∧ err (on_settings start).2 = []
  ∧ written (on_settings start).2 = []
  ∧ calls (on_settings start).2 = []
  ∧ length (out (on_settings start).2) = 37.
Proof.
  intros Hset. unfold node, main. rewrite Hset. by split_and!.
Qed.

Lemma settings_listing_is_all_witness :
  let H := machine "/a/b" [] in
  let program :=
    {| isTTY := false; stdin_data := ["# Title"%string];
       program_output := Some "out.md"%string; program_config := None;
       program_setting := ∅; program_use := ["toc"%string];
       program_ast := true; program_settings := true;
       program_args := ["one.md"; "two.md"]%string |} in
  node program = (0%Z, (on_settings start).2)
  ∧ err (on_settings start).2 = []
  ∧ written (on_settings start).2 = []
  ∧ calls (on_settings start).2 = []
  ∧ length (out (on_settings start).2) = 37.
Proof.
  intros H program.
  apply (settings_listing_is_all (H:=H) program). reflexivity.
Defined.

(** X17: on a terminal with one file argument, the path is resolved and
    read; when it cannot be read the process ends with code 1 and the
    report of [fail], and [run] is not called: the read is the only call
    made. *)
Theorem unreadable_file_is_fatal `{Host} (program : invocation)
    (file : string) (e : thrown) :
  program_settings program = false →
  isTTY program = true →
  program_args program = [file] →
  resolve [file] ≠ "" →
  readFile (resolve [file]) = inl e →
  node program
  = (1%Z,
     {| out := []; err := [diagnostic e +:+ nl]; written := [];
        calls := [ReadFile (resolve [file])] |}).
Proof.
  intros Hset Htty Hargs Hfile%String.eqb_neq Hread.
  unfold node, main. rewrite Hset, Htty, Hargs.
  cbn [negb andb orb length Nat.eqb]. rewrite bind_unfold.
  cbn [mret proc_ret map lookup list_lookup]. unfold truthy.
  rewrite Hfile. cbn [negb].
  by rewrite (bind_try_fail _ _ _ _ _ Hread).
Qed.

Lemma unreadable_file_is_fatal_witness :
  @node (faulty "/a/b" [] ["readFile"%string])
    {| isTTY := true; stdin_data := [];
       program_output := None; program_config := None;
       program_setting := ∅; program_use := [];
       program_ast := false; program_settings := false;
       program_args := ["readme.md"%string] |}
  = (1%Z,
     {| out := []; err := [diagnostic (crash "readFile") +:+ nl];
        written := []; calls := [ReadFile "/a/b/readme.md"] |}).
Proof.
  apply (unreadable_file_is_fatal
           (H:=faulty "/a/b" [] ["readFile"%string]) _ "readme.md"
           (crash "readFile"));
    [reflexivity|reflexivity|reflexivity|discriminate|reflexivity].
Defined.

Lemma on_data_app `{Host} (program : invocation) (before after : list string)
    (w : world) :
  on_data program (before ++ after) w
  = bind (on_data program before) (fun _ => on_data program after) w.
Proof.
  revert w. induction before as [|value before IH]; intros w; [done|].
  rewrite <- app_comm_cons, on_data_cons.
  rewrite (bind_unfold (on_data program (value :: before))), on_data_cons.
  rewrite !bind_unfold.
  destruct (run program value None w) as [[[]|code|e] w1]; [|done..].
  by rewrite IH, bind_unfold.
Qed.

Lemma run_without_output `{Host} (program : invocation) (value : string)
    (filename : option string) (w : world) (r : outcome unit) (w' : world) :
  truthy (program_output program) = false →
  run program value filename w = (r, w') →
  written w' = written w.
Proof.
  intros Hnone Hrun. destruct r as [[]|code|e].
  - revert Hrun. unfold run. intros Hrun.
    do 5 (apply bind_return_silent in Hrun as (? & ? & (_ & _ & ?) & Hrun);
          [|auto with quiet]).
    apply bind_return_silent in Hrun as (txt & w6 & (_ & _ & ?) & Hrun);
      [|destruct (program_ast program); auto with quiet].
    assert (Hw : written w6 = written w) by congruence.
    destruct (program_output program) as [path|];
      [rewrite Hnone in Hrun|]; by injection Hrun as <-.
  - by destruct (failsafe_run program value filename _ _ _ Hrun)
      as (_ & _ & ? & _).
  - by destruct (failsafe_run program value filename _ _ _ Hrun)
      as (_ & _ & ?).
Qed.

Lemma on_data_without_output `{Host} (program : invocation) :
  truthy (program_output program) = false →
  ∀ data w r w',
    on_data program data w = (r, w') → written w' = written w.
Proof.
  intros Hnone. induction data as [|value data IH]; intros w r w'.
  - by intros [= <- <-].
  - rewrite on_data_cons, bind_unfold.
    destruct (run program value None w) as [[[]|code|e] w1] eqn:Hrun;
      pose proof (run_without_output _ _ _ _ _ _ Hnone Hrun) as Hw.
    + intros Hrest. by rewrite (IH _ _ _ Hrest).
    + by intros [= <- <-].
    + by intros [= <- <-].
Qed.



(** ** One raw string or several options *)

Lemma ends_with_space_tail (c : ascii) (x : string) :
  ends_with_space (String c x) = false → ends_with_space x = false.
Proof. by destruct x. Qed.

Lemma skip_spaces_ends (x : string) :
  ends_with_space x = false → ends_with_space (JS.skip_spaces x) = false.
Proof.
  induction x as [|c x IH]; [done|]. intros Hx. simpl.
  destruct (JS.is_space c); [|done]. by apply IH, (ends_with_space_tail c).
Qed.

Lemma skip_spaces_app (x s : string) :
  ends_with_space x = false → no_leading_space s = true →
  JS.skip_spaces (x +:+ s) = JS.skip_spaces x +:+ s.
Proof.
  intros Hx Hs. induction x as [|c x IH]; [by apply skip_spaces_id|].
  rewrite append_cons. simpl. destruct (JS.is_space c) eqn:Hc; [|done].
  apply IH, (ends_with_space_tail c), Hx.
Qed.

Lemma skip_spaces_empty (x : string) :
  ends_with_space x = false → JS.skip_spaces x = "" → x = "".
Proof.
  induction x as [|c x IH]; [done|]. intros Hx. simpl.
  destruct (JS.is_space c) eqn:Hc; [|done]. intros Hskip.
  rewrite (IH (ends_with_space_tail c _ Hx) Hskip) in Hx.
  simpl in Hx. congruence.
Qed.

Lemma match_delim_app (D : ascii → bool) (x s : string) :
  ends_with_space x = false → x ≠ "" → no_leading_space s = true →
  JS.match_delim D (x +:+ s)
  = (fun rest => rest +:+ s) <$> JS.match_delim D x.
Proof.
  intros Hx Hne Hs. unfold JS.match_delim.
  rewrite (skip_spaces_app _ _ Hx Hs).
  pose proof (skip_spaces_ends _ Hx) as Hends.
  destruct (JS.skip_spaces x) as [|e y] eqn:E;
    [by apply skip_spaces_empty in E|].
  rewrite append_cons. destruct (D e); [|done]. simpl. f_equal.
  apply skip_spaces_app; [|done]. by apply (ends_with_space_tail e).
Qed.

Lemma match_delim_ends (D : ascii → bool) (x rest : string) :
  ends_with_space x = false → JS.match_delim D x = Some rest →
  ends_with_space rest = false.
Proof.
  intros Hx. unfold JS.match_delim.
  pose proof (skip_spaces_ends _ Hx) as Hends.
  destruct (JS.skip_spaces x) as [|e y]; [done|].
  destruct (D e); [|done]. intros [= <-].
  by apply skip_spaces_ends, (ends_with_space_tail e).
Qed.

(** Cutting a text in two at a delimiter and splitting the halves gives
    the pieces of the whole. *)
Lemma split_loop_app (D : ascii → bool) (d : ascii) (s : string) :
  D d = true → JS.is_space d = false → no_leading_space s = true →
  ∀ n tok x,
    String.length (x +:+ String d s) ≤ n →
    ends_with_space x = false →
    JS.split_loop (JS.match_delim D) n tok (x +:+ String d s)
    = JS.split_loop (JS.match_delim D) (String.length x) tok x
      ++ JS.split (JS.match_delim D) s.
Proof.
  intros Hd Hsp Hs. induction n as [|n IH]; intros tok x Hn Hx.
  - rewrite length_append in Hn. simpl in Hn. lia.
  - destruct x as [|c x].
    + change ("" +:+ ?y) with y in *. rewrite split_loop_S.
      pose proof (match_delim_at D d 0 0 s Hd Hsp Hs) as Hm.
      change (JS.match_delim D (String d s) = Some s) in Hm.
      rewrite Hm. simpl. f_equal.
      apply split_loop_fuel; [apply match_delim_shrinking| |]; simpl in *; lia.
    + assert (Hm : JS.match_delim D (String c x +:+ String d s)
                   = (fun rest => rest +:+ String d s)
                       <$> JS.match_delim D (String c x)).
      { apply match_delim_app; [done|done|]. simpl. by rewrite Hsp. }
      rewrite append_cons in *. simpl String.length. rewrite !split_loop_S, Hm.
      destruct (JS.match_delim D (String c x)) as [rest|] eqn:E; simpl.
      * pose proof (match_delim_shrinking D _ _ E) as Hlen.
        rewrite IH.
        -- f_equal. f_equal.
           apply split_loop_fuel; [apply match_delim_shrinking| |];
             simpl in *; lia.
        -- simpl in Hn, Hlen. rewrite length_append in Hn.
           rewrite length_append. lia.
        -- by eapply match_delim_ends.
      * apply IH; [simpl in Hn; lia|by apply (ends_with_space_tail c)].
Qed.

Lemma split_app (D : ascii → bool) (d : ascii) (x s : string) :
  D d = true → JS.is_space d = false →
  ends_with_space x = false → no_leading_space s = true →
  JS.split (JS.match_delim D) (x +:+ String d s)
  = JS.split (JS.match_delim D) x ++ JS.split (JS.match_delim D) s.
Proof.
  intros Hd Hsp Hx Hs. unfold JS.split at 1. by apply split_loop_app.
Qed.

Lemma delimiter_is_no_space (d : ascii) :
  is_comma_or_semicolon d = true → JS.is_space d = false.
Proof.
  unfold is_comma_or_semicolon.
  by intros [->%Ascii.eqb_eq | ->%Ascii.eqb_eq]%orb_prop.
Qed.

(** X19: two raw strings joined by a comma or a semicolon and given in
    one option do what they do in two options given in this order, as
    long as the first does not end and the second does not start with a
    space: [--setting] leaves the same store, and [--use] a list with the
    same identifiers. *)
Theorem one_option_or_two `{Packages} (first second : string) (d : ascii) :
  is_comma_or_semicolon d = true →
  ends_with_space first = false →
  no_leading_space second = true →
  (∀ cache (h : objects) o,
     h !! cache = Some o →
     parseSetting (first +:+ String d second) cache h
     = settingOption [first; second] cache h)
  ∧ (∀ cache (h : arrays) xs,
       h !! cache = Some xs →
       (parsePlugin (first +:+ String d second) cache h).2
         !! (parsePlugin (first +:+ String d second) cache h).1
       = (useOption [first; second] cache h).2
           !! (useOption [first; second] cache h).1).
Proof.
  intros Hd Hfirst Hsecond.
  pose proof (split_app is_comma_or_semicolon d first second Hd
                (delimiter_is_no_space d Hd) Hfirst Hsecond) as Hsplit.
  fold SPLITTER in Hsplit. split.
  - intros cache h o Hc.
    rewrite (parseSetting_fold _ _ _ _ Hc), (settingOption_fold _ _ _ _ Hc).
    unfold assignments at 1. rewrite Hsplit, map_app. simpl.
    by rewrite app_nil_r.
  - intros cache h xs Hc.
    rewrite (parsePlugin_lookup _ _ _ _ Hc), (useOption_lookup _ _ _ _ Hc).
    rewrite Hsplit. simpl. by rewrite app_nil_r.
Qed.

Lemma one_option_or_two_witness :
  parseSetting (H:=packages) "setext, bullet: *;rule-repetition:4" 0
    {[ 0 := ∅ ]}
  = settingOption (H:=packages) ["setext, bullet: *"; "rule-repetition:4"]%string
      0 {[ 0 := ∅ ]}.
Proof.
  apply (proj1 (one_option_or_two (H:=packages) "setext, bullet: *"
                  "rule-repetition:4" ";"%char eq_refl eq_refl eq_refl)
           0 {[ 0 := ∅ ]} ∅).
  reflexivity.
Defined.

(** X20: [parsePlugin] makes the list longer whatever it is given, for
    [split] returns at least one piece: the empty string adds the empty
    identifier, and so does a comma or semicolon at the end of the raw
    string. *)
Theorem parsePlugin_adds_a_piece (ware : string) (cache : ref) (h : arrays)
    (xs : list string) :
  h !! cache = Some xs →
  (∃ x l,
     (parsePlugin ware cache h).2 !! (parsePlugin ware cache h).1
     = Some (xs ++ x :: l))
  ∧ (ware = "" →
     (parsePlugin ware cache h).2 !! (parsePlugin ware cache h).1
     = Some (xs ++ [""%string]))
  ∧ (∀ token a d b,
       ware = token +:+ spaces a +:+ String d (spaces b) →
       is_comma_or_semicolon d = true →
       clean is_comma_or_semicolon token = true →
       (parsePlugin ware cache h).2 !! (parsePlugin ware cache h).1
       = Some (xs ++ [token; ""%string])).
Proof.
  intros Hc. rewrite (parsePlugin_lookup _ _ _ _ Hc). split_and!.
  - pose proof (split_loop_nonempty SPLITTER (String.length ware) "" ware).
    unfold JS.split. destruct (JS.split_loop _ _ _ _) as [|x l]; [done|].
    by exists x, l.
  - by intros ->.
  - intros token a d b -> Hd Htoken. do 2 f_equal.
    pose proof (split_first is_comma_or_semicolon d token a b "" Hd
                  (delimiter_is_no_space d Hd) Htoken eq_refl "" _
                  (Nat.le_refl _)) as Hsplit.
    rewrite append_nil_r in Hsplit. exact Hsplit.
Qed.

Lemma parsePlugin_adds_a_piece_witness :
  (parsePlugin "toc ," 0 {[ 0 := ["lint"%string] ]}).2
    !! (parsePlugin "toc ," 0 {[ 0 := ["lint"%string] ]}).1
  = Some (["lint"%string] ++ ["toc"; ""]%string).
Proof.
  destruct (parsePlugin_adds_a_piece "toc ," 0 {[ 0 := ["lint"%string] ]}
              ["lint"%string]) as (_ & _ & Hcut); [reflexivity|].
  apply (Hcut "toc"%string 1 ","%char 0); reflexivity.
Defined.

(** ** Spaces at the two ends of a split text *)

Lemma split_loop_tok (m : JS.matcher) :
  ∀ n tok s,
    JS.split_loop m n tok s
    = match JS.split_loop m n "" s with
      | x :: l => (tok +:+ x) :: l
      | [] => []
      end.
Proof.
  induction n as [|n IH]; intros tok s.
  - destruct s; simpl; by rewrite append_nil_r.
  - destruct s as [|c s]; [simpl; by rewrite append_nil_r|].
    rewrite !split_loop_S. destruct (m (String c s)) as [rest|].
    + by rewrite append_nil_r.
    + rewrite (IH (JS.snoc tok c)), (IH (JS.snoc "" c)).
      destruct (JS.split_loop m n "" s) as [|x l]; [done|].
      by rewrite !snoc_append.
Qed.

Lemma match_delim_plain_start (D : ascii → bool) (a : nat) (t : string) :
  plain_start D t = true → JS.match_delim D (spaces a +:+ t) = None.
Proof.
  intros Ht. unfold JS.match_delim. rewrite skip_spaces_spaces.
  destruct t as [|c t]; [done|]. simpl in *.
  apply andb_prop in Ht as [Hs%negb_true_iff Hd%negb_true_iff].
  by rewrite Hs, Hd.
Qed.

Lemma spaces_snoc (tok : string) (a : nat) :
  JS.snoc tok " " +:+ spaces a = tok +:+ spaces (S a).
Proof. by rewrite snoc_append. Qed.

Lemma split_loop_leading (D : ascii → bool) (t : string) :
  plain_start D t = true →
  ∀ a n tok,
    String.length (spaces a +:+ t) ≤ n →
    JS.split_loop (JS.match_delim D) n tok (spaces a +:+ t)
    = JS.split_loop (JS.match_delim D) (String.length t) (tok +:+ spaces a) t.
Proof.
  intros Ht. induction a as [|a IH]; intros n tok Hn.
  - change (spaces 0 +:+ t) with t in *. simpl spaces. rewrite append_nil_r.
    apply split_loop_fuel; [apply match_delim_shrinking|done|lia].
  - change (spaces (S a) +:+ t) with (String " " (spaces a +:+ t)) in *.
    destruct n as [|n]; [simpl in Hn; lia|].
    rewrite split_loop_S.
    change (String " " (spaces a +:+ t)) with (spaces (S a) +:+ t).
    rewrite (match_delim_plain_start _ _ _ Ht).
    rewrite IH by (simpl in Hn; lia). by rewrite spaces_snoc.
Qed.

Lemma plain_end_tail (D : ascii → bool) (c : ascii) (t : string) :
  plain_end D (String c t) = true → plain_end D t = true.
Proof. by destruct t. Qed.

Lemma plain_end_no_space (D : ascii → bool) (t : string) :
  plain_end D t = true → ends_with_space t = false.
Proof.
  induction t as [|c t IH]; [done|]. destruct t as [|d t].
  - simpl. by intros [->%negb_true_iff _]%andb_prop.
  - intros Ht. by apply IH.
Qed.

Lemma plain_end_skip_spaces (D : ascii → bool) (t : string) :
  plain_end D t = true → plain_end D (JS.skip_spaces t) = true.
Proof.
  induction t as [|c t IH]; [done|]. intros Ht. simpl.
  destruct (JS.is_space c); [|done]. by apply IH, (plain_end_tail D c).
Qed.

Lemma skip_spaces_app_any (x s : string) :
  x ≠ "" → ends_with_space x = false →
  JS.skip_spaces (x +:+ s) = JS.skip_spaces x +:+ s.
Proof.
  induction x as [|c x IH]; [done|]. intros _ Hx.
  rewrite append_cons. simpl. destruct (JS.is_space c) eqn:Hc; [|done].
  destruct x as [|d x]; [simpl in Hx; congruence|]. by apply IH.
Qed.

Lemma match_delim_app_any (D : ascii → bool) (x s : string) :
  x ≠ "" → plain_end D x = true →
  JS.match_delim D (x +:+ s)
  = (fun rest => rest +:+ s) <$> JS.match_delim D x
  ∧ ∀ rest, JS.match_delim D x = Some rest → plain_end D rest = true.
Proof.
  intros Hne Hx. unfold JS.match_delim.
  pose proof (plain_end_no_space _ _ Hx) as Hsp.
  rewrite (skip_spaces_app_any _ _ Hne Hsp).
  pose proof (plain_end_skip_spaces _ _ Hx) as Hy.
  destruct (JS.skip_spaces x) as [|e y] eqn:E;
    [by apply skip_spaces_empty in E|].
  rewrite append_cons. destruct (D e) eqn:He; [|done].
  destruct y as [|f y].
  { simpl in Hy. rewrite He in Hy. by rewrite andb_false_r in Hy. }
  assert (Hy' : plain_end D (String f y) = true) by done.
  split.
  - simpl fmap. f_equal.
    apply skip_spaces_app_any; [done|by eapply plain_end_no_space].
  - intros rest [= <-]. by apply (plain_end_skip_spaces D (String f y)).
Qed.

Lemma free_spaces (D : ascii → bool) (b : nat) :
  D " "%char = false → free D (spaces b) = true.
Proof. intros Hd. induction b as [|b IH]; [done|]. simpl. by rewrite Hd. Qed.

Lemma split_loop_trailing (D : ascii → bool) (b : nat) :
  D " "%char = false →
  ∀ n tok t,
    String.length (t +:+ spaces b) ≤ n →
    plain_end D t = true →
    ∃ l x,
      JS.split_loop (JS.match_delim D) (String.length t) tok t = l ++ [x]
      ∧ JS.split_loop (JS.match_delim D) n tok (t +:+ spaces b)
        = l ++ [x +:+ spaces b].
Proof.
  intros Hd. induction n as [|n IH]; intros tok t Hn Ht.
  - destruct t as [|c t]; [|simpl in Hn; lia].
    exists [], tok. split; [done|].
    change ("" +:+ spaces b) with (spaces b) in *.
    destruct (spaces b); [|simpl in Hn; lia]. simpl. by rewrite append_nil_r.
  - destruct t as [|c t].
    + exists [], tok. split; [done|].
      change ("" +:+ spaces b) with (spaces b) in *.
      destruct (split_loop_free D (spaces b) (free_spaces D b Hd) tok (S n))
        as [->|?]; [done|lia].
    + destruct (match_delim_app_any D (String c t) (spaces b))
        as [Hm Hrest]; [done|done|].
      rewrite append_cons in *. simpl String.length.
      rewrite !split_loop_S, Hm.
      destruct (JS.match_delim D (String c t)) as [rest|] eqn:E.
      * pose proof (match_delim_shrinking D _ _ E) as Hlen.
        destruct (IH "" rest) as (l & x & Hl & Hr);
          [simpl in Hn, Hlen; rewrite length_append in *; lia
          |by apply Hrest|].
        exists (tok :: l), x. simpl fmap. cbv iota. rewrite Hr. split; [|done].
        rewrite <- app_comm_cons. f_equal. rewrite <- Hl.
        apply split_loop_fuel; [apply match_delim_shrinking| |];
          simpl in *; lia.
      * simpl fmap. cbv iota.
        apply IH; [simpl in Hn; lia|by apply (plain_end_tail D c)].
Qed.

Lemma split_leading_spaces (D : ascii → bool) (a : nat) (t : string) :
  plain_start D t = true →
  ∃ x l,
    JS.split (JS.match_delim D) t = x :: l
    ∧ JS.split (JS.match_delim D) (spaces a +:+ t) = (spaces a +:+ x) :: l.
Proof.
  intros Ht. unfold JS.split.
  rewrite (split_loop_leading D t Ht a _ "") by lia.
  change ("" +:+ spaces a) with (spaces a).
  rewrite (split_loop_tok _ _ (spaces a)).
  pose proof (split_loop_nonempty (JS.match_delim D) (String.length t) "" t).
  destruct (JS.split_loop _ _ "" t) as [|x l]; [done|]. by exists x, l.
Qed.

Lemma split_trailing_spaces (D : ascii → bool) (b : nat) (t : string) :
  D " "%char = false → plain_end D t = true →
  ∃ l x,
    JS.split (JS.match_delim D) t = l ++ [x]
    ∧ JS.split (JS.match_delim D) (t +:+ spaces b) = l ++ [x +:+ spaces b].
Proof.
  intros Hd Ht. unfold JS.split. by apply split_loop_trailing.
Qed.

(** X1: the pieces that [parsePlugin] and [parseSetting] get from
    [split(SPLITTER)] hold no comma and no semicolon, and those that
    [parseSetting] gets from [split(DELIMITER)] hold no colon; in both
    cases every piece but the first starts without a space and every
    piece but the last ends without one.  The spaces at the two ends of
    the text are kept: spaces put before a text that starts with
    something other than a space or a delimiter are put before its first
    piece, and spaces put after a text that ends with something other
    than a space or a delimiter are put after its last piece, the other
    pieces staying as they were. *)
Theorem split_pieces_are_trimmed :
  (∀ s,
     Forall (fun x => free is_comma_or_semicolon x = true)
            (JS.split SPLITTER s)
     ∧ Forall (fun x => no_leading_space x = true)
              (tail (JS.split SPLITTER s))
     ∧ Forall (fun x => ends_with_space x = false)
              (removelast (JS.split SPLITTER s)))
  ∧ (∀ s,
       Forall (fun x => free is_colon x = true) (JS.split DELIMITER s)
       ∧ Forall (fun x => no_leading_space x = true)
                (tail (JS.split DELIMITER s))
       ∧ Forall (fun x => ends_with_space x = false)
                (removelast (JS.split DELIMITER s)))
  ∧ (∀ a t,
       plain_start is_comma_or_semicolon t = true →
       ∃ x l,
         JS.split SPLITTER t = x :: l
         ∧ JS.split SPLITTER (spaces a +:+ t) = (spaces a +:+ x) :: l)
  ∧ (∀ t b,
       plain_end is_comma_or_semicolon t = true →
       ∃ l x,
         JS.split SPLITTER t = l ++ [x]
         ∧ JS.split SPLITTER (t +:+ spaces b) = l ++ [x +:+ spaces b])
  ∧ (∀ a t,
       plain_start is_colon t = true →
       ∃ x l,
         JS.split DELIMITER t = x :: l
         ∧ JS.split DELIMITER (spaces a +:+ t) = (spaces a +:+ x) :: l)
  ∧ (∀ t b,
       plain_end is_colon t = true →
       ∃ l x,
         JS.split DELIMITER t = l ++ [x]
         ∧ JS.split DELIMITER (t +:+ spaces b) = l ++ [x +:+ spaces b]).
Proof.
  unfold SPLITTER, DELIMITER. split_and!.
  - intros s. unfold JS.split. split_and!.
    + apply split_loop_free_pieces; [|done]. apply delimiter_is_no_space.
    + apply split_loop_later_pieces.
    + by apply split_loop_earlier_pieces.
  - intros s. unfold JS.split. split_and!.
    + apply split_loop_free_pieces; [|done]. by intros d ->%Ascii.eqb_eq.
    + apply split_loop_later_pieces.
    + by apply split_loop_earlier_pieces.
  - intros a t. apply split_leading_spaces.
  - intros t b. by apply split_trailing_spaces.
  - intros a t. apply split_leading_spaces.
  - intros t b. by apply split_trailing_spaces.
Qed.

Lemma split_pieces_are_trimmed_witness :
  (∃ x l,
     JS.split SPLITTER "toc , lint" = x :: l
     ∧ JS.split SPLITTER (spaces 2 +:+ "toc , lint") = (spaces 2 +:+ x) :: l)
  ∧ (∃ l x,
       JS.split SPLITTER "toc , lint" = l ++ [x]
       ∧ JS.split SPLITTER ("toc , lint" +:+ spaces 3)
         = l ++ [x +:+ spaces 3]).
Proof.
  destruct split_pieces_are_trimmed as (_ & _ & Hlead & Htrail & _).
  split.
  - apply (Hlead 2 "toc , lint"%string). reflexivity.
  - apply (Htrail "toc , lint"%string 3). reflexivity.
Defined.

(** ** Every failure and its report *)

Lemma main_input_file `{Host} (program : invocation) (file : string) :
  program_settings program = false →
  isTTY program = true →
  input_file program = Some file →
  resolve [file] ≠ "" →
  ∀ w,
    main program w
    = bind (try_catch
              (calling (ReadFile (resolve [file]))
                 (readFile (resolve [file])))
              fail)
        (fun value => run program value (Some (resolve [file]))) w.
Proof.
  intros Hset Htty Hin Hfile%String.eqb_neq w.
  unfold main, input_file in *. rewrite Hset, Htty.
  destruct (program_args program) as [|f [|g files]].
  - destruct (program_output program) as [path|]; [|done].
    destruct (truthy (Some path)) eqn:Hpath; [|done].
    injection Hin as ->.
    cbn [negb andb orb length Nat.eqb app]. rewrite bind_unfold.
    cbn [mret proc_ret map lookup list_lookup]. unfold truthy.
    by rewrite Hfile.
  - injection Hin as ->.
    cbn [negb andb orb length Nat.eqb]. rewrite bind_unfold.
    cbn [mret proc_ret map lookup list_lookup]. unfold truthy.
    by rewrite Hfile.
  - done.
Qed.

Lemma node_ending `{Host} (program : invocation) :
  node program = ending (main program start).
Proof. reflexivity. Qed.

Lemma node_reads `{Host} (program : invocation) (value : string)
    (filename : option string) (before : list call) :
  reads program value filename before →
  node program = ending (run program value filename (logs before start)).
Proof.
  intros [Hset [(Htty & file & Hin & Hfile & Hread & -> & ->)
               |(Htty & Hargs & Hdata & -> & ->)]];
    rewrite node_ending.
  - rewrite (main_input_file _ _ Hset Htty Hin Hfile).
    by rewrite (bind_try_ok _ _ _ _ _ Hread).
  - rewrite (main_piped _ Hset Htty Hargs), Hdata, on_data_cons, bind_unfold.
    rewrite logs_nil.
    by destruct (run program value None start) as [[[]|code|e] w].
Qed.

Lemma ending_exit `{Host} {A} (code : Z) (report : string)
    (cs : list call) :
  ending (A:=A) (Exit code, to_err report (logs cs start))
  = (code, failure report cs).
Proof. reflexivity. Qed.

Lemma ending_throw `{Host} {A} (e : thrown) (cs : list call) :
  ending (A:=A) (Throw e, logs cs start)
  = (uncaughtCode, failure (uncaughtReport e) cs).
Proof. reflexivity. Qed.

Ltac ended :=
  rewrite ?logs_logs, ?ending_exit, ?ending_throw, <- ?app_assoc;
  reflexivity.

Lemma node_wrong_count `{Host} (program : invocation) :
  program_settings program = false →
  (isTTY program = false ∧ program_args program ≠ [])
  ∨ (isTTY program = true ∧ 2 ≤ length (program_args program)) →
  node program
  = (1%Z, failure ("mdast currently expects one file." +:+ nl) []).
Proof.
  intros Hset [[Htty Hargs]|[Htty Hargs]]; unfold node, main;
    rewrite Hset, Htty.
  - by destruct (program_args program).
  - destruct (program_args program) as [|f [|g files]];
      [simpl in Hargs; lia..|done].
Qed.

Lemma node_unreadable `{Host} (program : invocation) (file : string)
    (e : thrown) :
  program_settings program = false →
  isTTY program = true →
  input_file program = Some file →
  resolve [file] ≠ "" →
  readFile (resolve [file]) = inl e →
  node program
  = (1%Z, failure (diagnostic e +:+ nl) [ReadFile (resolve [file])]).
Proof.
  intros Hset Htty Hin Hfile Hread. rewrite node_ending.
  rewrite (main_input_file _ _ Hset Htty Hin Hfile).
  by rewrite (bind_try_fail _ _ _ _ _ Hread).
Qed.


